(** * fireci.gradle: the Gradle wrapper runner

    A shallow embedding of [ci/fireci/fireci/gradle.py] and the properties
    of its two functions, [P] and [run].

    Python values are modelled as the interpreter has them: a [str] is a
    sequence of Unicode code points, a [bytes] object a sequence of octets,
    a [dict] a finite map living in a store of objects (so that a copy and
    an alias differ), and the outside world (the logger, the child process
    and its pipe) is a state threaded through a state-and-exception monad
    that also records the order of the interactions. *)

From Stdlib Require Import ZArith NArith DecimalString.
From Stdlib.Strings Require Import Ascii String Byte.
From stdpp Require Import base option list gmap.
From Equations Require Import Equations.

Local Open Scope N_scope.

(** ** Python strings and bytes *)

(** A Unicode code point; Python's [str] is a sequence of them. *)
Definition char := N.
Definition str := list char.
Definition bytes := list byte.

(** A source literal (ASCII only in this module) as a [str]. *)
Definition lit (s : string) : str := N_of_ascii <$> list_ascii_of_string s.

(** A [bytes] literal. *)
Definition blit (s : string) : bytes := list_byte_of_string s.

(** The double quote, U+0022. *)
Definition dquote : str := [34].

(** Truthiness of a [str]: the empty string is the only false one. *)
Definition truthy (s : str) : bool :=
  match s with [] => false | _ :: _ => true end.

(** [sep.join(l)]. *)
Fixpoint join (sep : str) (l : list str) : str :=
  match l with
  | [] => []
  | [s] => s
  | s :: l' => s ++ sep ++ join sep l'
  end.

(** *** [bytes.decode()]: strict UTF-8

    The default codec is UTF-8 with [errors='strict']: the input must be a
    concatenation of well-formed sequences (no stray continuation octet, no
    overlong form, no surrogate, nothing above U+10FFFF), otherwise
    [UnicodeDecodeError] is raised, here [None]. *)

Definition cont (b : byte) : bool :=
  (0x80 <=? Byte.to_N b) && (Byte.to_N b <=? 0xBF).

Definition in_range (lo hi : N) (b : byte) : bool :=
  (lo <=? Byte.to_N b) && (Byte.to_N b <=? hi).

Definition low6 (b : byte) : N := Byte.to_N b - 0x80.

Fixpoint decode (bs : bytes) : option str :=
  match bs with
  | [] => Some []
  | b0 :: r0 =>
    let n0 := Byte.to_N b0 in
    if n0 <? 0x80 then cons n0 <$> decode r0
    else if n0 <? 0xC2 then None
    else if n0 <? 0xE0 then
      match r0 with
      | b1 :: r1 =>
        if cont b1
        then cons ((n0 - 0xC0) * 0x40 + low6 b1) <$> decode r1
        else None
      | _ => None
      end
    else if n0 <? 0xF0 then
      match r0 with
      | b1 :: b2 :: r2 =>
        let lo := if n0 =? 0xE0 then 0xA0 else 0x80 in
        let hi := if n0 =? 0xED then 0x9F else 0xBF in
        if in_range lo hi b1 && cont b2
        then cons ((n0 - 0xE0) * 0x1000 + low6 b1 * 0x40 + low6 b2)
               <$> decode r2
        else None
      | _ => None
      end
    else if n0 <? 0xF5 then
      match r0 with
      | b1 :: b2 :: b3 :: r3 =>
        let lo := if n0 =? 0xF0 then 0x90 else 0x80 in
        let hi := if n0 =? 0xF4 then 0x8F else 0xBF in
        if in_range lo hi b1 && cont b2 && cont b3
        then cons ((n0 - 0xF0) * 0x40000 + low6 b1 * 0x1000
                   + low6 b2 * 0x40 + low6 b3) <$> decode r3
        else None
      | _ => None
      end
    else None
  end.

(** *** [str.rstrip()]

    With no argument, [rstrip] removes the trailing characters for which
    [str.isspace] holds: the ASCII controls U+0009..U+000D and
    U+001C..U+001F, the space, and the Unicode separators below. *)

Definition isspace (c : char) : bool :=
  ((0x09 <=? c) && (c <=? 0x0D)) || ((0x1C <=? c) && (c <=? 0x20))
  || (c =? 0x85) || (c =? 0xA0) || (c =? 0x1680)
  || ((0x2000 <=? c) && (c <=? 0x200A))
  || (c =? 0x2028) || (c =? 0x2029) || (c =? 0x202F) || (c =? 0x205F)
  || (c =? 0x3000).

Fixpoint rstrip (s : str) : str :=
  match s with
  | [] => []
  | c :: s' =>
    match rstrip s' with
    | [] => if isspace c then [] else [c]
    | t => c :: t
    end
  end.

(** ** The property formatter *)

(** [ADB_INSTALL_TIMEOUT = '5'] *)
Definition ADB_INSTALL_TIMEOUT : str := lit "5".

(** [format(x, '')], which is what a bare [{}] field of [str.format] applies
    to its argument, for the values a caller passes: a [str] is itself, an
    [int] its decimal numeral, a [bool] its name. *)
Class Format (A : Type) := format : A -> str.

#[export] Instance format_str : Format str := fun s => s.
#[export] Instance format_int : Format Z :=
  fun z => lit (DecimalString.NilZero.string_of_int (Z.to_int z)).
#[export] Instance format_bool : Format bool :=
  fun b => if b then lit "True" else lit "False".

(** [def P(name, value): return '-P{}={}'.format(name, value)] *)
Definition P {A B} `{Format A, Format B} (name : A) (value : B) : str :=
  lit "-P" ++ format name ++ lit "=" ++ format value.

(** ** The world outside the interpreter *)

(** What a launched program does, as far as its parent can see: the octets
    it writes to standard output and standard error, in order, and the
    status it exits with (negative when killed by a signal). *)
Record child := { output : bytes; status : Z }.

(** The read end of the pipe behind [p.stdout]. *)
Record pipe := { unread : bytes; closed : bool }.

(** A [subprocess.Popen] object created with [stdout=PIPE] and
    [stderr=STDOUT]: [p.stderr] is [None] and is not represented. *)
Record popen := {
  args : list str;
  dir : str;                    (* the directory the child runs in *)
  child_env : gmap str str;     (* the environment the child runs with *)
  stdout : pipe;
  exits : Z;                    (* the status the child ends with *)
  returncode : option Z         (* [None] until the child is reaped *)
}.

(** A reference to a mapping object: [os.environ] itself, or a [dict]
    allocated by the program. *)
Inductive ref := Environ | Dict (n : nat).

(** The interactions of the program with the outside, in the order they
    happen. *)
Inductive event :=
| Info (msg : str) (margs : list str)   (* [_logger.info(msg, *margs)] *)
(* [Popen] is called with these arguments *)
| Launch (command : list str) (cwd : option str) (env : gmap str str)
| Started (pid : nat) (c : child)       (* the kernel started the program *)
| Read (pid : nat) (line : bytes)       (* [p.stdout] yields a line *)
| Eof (pid : nat)                       (* [p.stdout] is exhausted *)
| Close (pid : nat)                     (* [p.stdout.close()] *)
| Wait (pid : nat) (rc : Z).            (* the child is reaped *)

Record world := {
  environ : gmap str str;               (* [os.environ] *)
  getcwd : str;                         (* [os.getcwd()] *)
  (* the kernel: what executing a command in a directory with an
     environment gives, an [errno] or a running program *)
  execve : list str -> str -> gmap str str -> Z + child;
  (* the filesystem encoding of the interpreter: whether [os.fsencode]
     accepts a string *)
  fsencodable : str -> bool;
  dicts : list (gmap str str);
  procs : list popen;
  trace : list event
}.

Definition emit (e : event) (w : world) : world :=
  {| environ := environ w; getcwd := getcwd w; execve := execve w;
     fsencodable := fsencodable w;
     dicts := dicts w; procs := procs w; trace := trace w ++ [e] |}.

Definition set_environ (m : gmap str str) (w : world) : world :=
  {| environ := m; getcwd := getcwd w; execve := execve w;
     fsencodable := fsencodable w;
     dicts := dicts w; procs := procs w; trace := trace w |}.

Definition set_dicts (ds : list (gmap str str)) (w : world) : world :=
  {| environ := environ w; getcwd := getcwd w; execve := execve w;
     fsencodable := fsencodable w;
     dicts := ds; procs := procs w; trace := trace w |}.

Definition set_procs (ps : list popen) (w : world) : world :=
  {| environ := environ w; getcwd := getcwd w; execve := execve w;
     fsencodable := fsencodable w;
     dicts := dicts w; procs := ps; trace := trace w |}.

(** ** Exceptions and the monad *)

(** A reference to a file object: the [stdout] attribute of a process. *)
Inductive fileref := StdoutOf (pid : nat).

Inductive exn :=
| OSError (errno : Z)
| ValueError                       (* I/O operation on closed file *)
(* what [Popen] raises before it forks for an argument, a directory or a
   variable it cannot hand to [exec]: [ValueError] (embedded null byte,
   illegal environment variable name) or its subclass
   [UnicodeEncodeError]; which of the two, when several items are at
   fault, depends on the order of the [dict], which a [gmap] forgets *)
| ArgumentValueError
| UnicodeDecodeError (object : bytes)
(* [CalledProcessError(returncode, cmd, output, stderr)] *)
| CalledProcessError (rc : Z) (cmd : list str)
                     (out : fileref) (err : option fileref).

(** [CompletedProcess(args, returncode, stdout, stderr)] *)
Record CompletedProcess := {
  cp_args : list str;
  cp_returncode : option Z;
  cp_stdout : fileref;
  cp_stderr : option fileref
}.

Definition M (A : Type) : Type := world -> (exn + A) * world.

Definition ret {A} (a : A) : M A := fun w => (inr a, w).

Definition bind {A B} (m : M A) (k : A -> M B) : M B :=
  fun w => match m w with
           | (inr a, w') => k a w'
           | (inl e, w') => (inl e, w')
           end.

Definition raise {A} (e : exn) : M A := fun w => (inl e, w).

(** [try: m finally: h] *)
Definition finally {A} (m : M A) (h : M unit) : M A :=
  fun w => match m w with
           | (r, w') => match h w' with
                        | (inr _, w'') => (r, w'')
                        | (inl e, w'') => (inl e, w'')
                        end
           end.

Notation "x <- c1 ;; c2" := (bind c1 (fun x => c2))
  (at level 100, c1 at next level, right associativity).
Notation "c1 ;; c2" := (bind c1 (fun _ => c2))
  (at level 100, right associativity).

(** *** Mappings *)

Definition deref (r : ref) (w : world) : gmap str str :=
  match r with
  | Environ => environ w
  | Dict n => default ∅ (dicts w !! n)
  end.

(** [dict(r)]: a new [dict] with the items of [r]. *)
Definition dict_copy (r : ref) : M ref :=
  fun w => (inr (Dict (length (dicts w))),
            set_dicts (dicts w ++ [deref r w]) w).

(** [r[k] = v] *)
Definition setitem (r : ref) (k v : str) : M unit :=
  fun w => (inr tt,
            match r with
            | Environ => set_environ (<[k:=v]> (environ w)) w
            | Dict n => set_dicts (alter (insert k v) n (dicts w)) w
            end).

(** *** The logger *)

(** [_logger.info(msg, *margs)] hands the record to the logging sink. *)
Definition info (msg : str) (margs : list str) : M unit :=
  fun w => (inr tt, emit (Info msg margs) w).

(** *** Processes *)

(** The directory a child started with [cwd] runs in: the parent's when
    [cwd] is [None], else [cwd], taken from the parent's directory when it
    is relative. *)
Definition child_dir (cwd : option str) (w : world) : str :=
  match cwd with
  | None => getcwd w
  | Some d =>
    match d with
    | 47 :: _ => d
    | _ => getcwd w ++ lit "/" ++ d
    end
  end.

(** A string without the equals sign, U+003D. *)
Definition no_equals (s : str) : bool :=
  forallb (fun c => negb (c =? 61)) s.

(** A string without U+0000. *)
Definition no_nul (s : str) : bool :=
  forallb (fun c => negb (c =? 0)) s.

(** A string that can be handed to [exec]: the filesystem encoding accepts
    it and it holds no null. *)
Definition passable (w : world) (s : str) : bool :=
  fsencodable w s && no_nul s.

(** What [Popen] checks before it forks: every argument, the directory
    and every variable and value must be passable, and no variable name
    may hold an equals sign. *)
Definition exec_ready (w : world) (command : list str)
    (cwd : option str) (e : gmap str str) : bool :=
  forallb (passable w) command
  && from_option (passable w) true cwd
  && forallb (fun kv => passable w kv.1 && no_equals kv.1
                        && passable w kv.2) (map_to_list e).

(** The answer of the launch primitive: the error it raises, or the
    program it started. *)
Definition launch (command : list str) (cwd : option str)
    (e : gmap str str) (w : world) : exn + child :=
  if exec_ready w command cwd e
  then match execve w command (child_dir cwd w) e with
       | inl errno => inl (OSError errno)
       | inr c => inr c
       end
  else inl ArgumentValueError.

(** [subprocess.Popen(command, cwd=cwd, env=env, stdout=PIPE,
    stderr=STDOUT)]: the mapping [env] is read at the call. *)
Definition Popen (command : list str) (cwd : option str) (env : ref)
  : M nat :=
  fun w =>
    let e := deref env w in
    let w1 := emit (Launch command cwd e) w in
    match launch command cwd e w with
    | inl x => (inl x, w1)
    | inr c =>
      let pid := length (procs w) in
      (inr pid,
       emit (Started pid c)
         (set_procs (procs w ++
            [{| args := command; dir := child_dir cwd w; child_env := e;
                stdout := {| unread := output c; closed := false |};
                exits := status c; returncode := None |}]) w1))
    end.

Definition with_stdout (f : pipe -> pipe) (p : popen) : popen :=
  {| args := args p; dir := dir p; child_env := child_env p;
     stdout := f (stdout p); exits := exits p;
     returncode := returncode p |}.

Definition reaped (p : popen) : popen :=
  {| args := args p; dir := dir p; child_env := child_env p;
     stdout := stdout p; exits := exits p;
     returncode := Some (exits p) |}.

Definition update_proc (pid : nat) (f : popen -> popen) (w : world)
  : world := set_procs (alter f pid (procs w)) w.

(** [BufferedReader.readline] on octets: up to and including the first
    line feed, or all of them when there is none. *)
Fixpoint read_line (bs : bytes) : bytes * bytes :=
  match bs with
  | [] => ([], [])
  | b :: r =>
    if Byte.eqb b x0a then ([b], r)
    else let '(l, r') := read_line r in (b :: l, r')
  end.

(** One step of iterating over [p.stdout]: the next line, or [None] when
    the stream is exhausted ([StopIteration]). *)
Definition next_line (pid : nat) (w : world) : option bytes * world :=
  match procs w !! pid with
  | Some p =>
    match read_line (unread (stdout p)) with
    | ([], _) => (None, emit (Eof pid) w)
    | (l, r) =>
      (Some l,
       emit (Read pid l)
         (update_proc pid
            (with_stdout (fun s => {| unread := r; closed := closed s |}))
            w))
    end
  | None => (None, emit (Eof pid) w)
  end.

(** [p.stdout.read()] *)
Definition read_all (f : fileref) : M bytes :=
  fun w =>
    let 'StdoutOf pid := f in
    match procs w !! pid with
    | Some p =>
      if closed (stdout p) then (inl ValueError, w)
      else
        match unread (stdout p) with
        | [] => (inr [], w)
        | bs =>
          (inr bs,
           emit (Read pid bs)
             (update_proc pid
                (with_stdout (fun s => {| unread := []; closed := false |}))
                w))
        end
    | None => (inl ValueError, w)
    end.

(** [p.stdout.close()]; closing a closed file does nothing. *)
Definition close (f : fileref) : M unit :=
  fun w =>
    let 'StdoutOf pid := f in
    match procs w !! pid with
    | Some p =>
      if closed (stdout p) then (inr tt, w)
      else
        (inr tt,
         emit (Close pid)
           (update_proc pid
              (with_stdout (fun s => {| unread := unread s; closed := true |}))
              w))
    | None => (inr tt, w)
    end.

(** [p.wait()]: blocks until the child has exited and records its status;
    returns at once when the status is already known. *)
Definition wait (pid : nat) : M unit :=
  fun w =>
    match procs w !! pid with
    | Some p =>
      match returncode p with
      | Some _ => (inr tt, w)
      | None => (inr tt, emit (Wait pid (exits p)) (update_proc pid reaped w))
      end
    | None => (inr tt, w)
    end.

(** [p.communicate()] with only [stdout] piped: read what is left, close,
    wait. *)
Definition communicate (pid : nat) : M (bytes * option bytes) :=
  out <- read_all (StdoutOf pid) ;;
  close (StdoutOf pid) ;;
  wait pid ;;
  ret (out, None).

(** [Popen.__exit__]: close the pipe and wait for the child. *)
Definition popen_exit (pid : nat) : M unit :=
  close (StdoutOf pid) ;; wait pid.

Definition get_returncode (pid : nat) : M (option Z) :=
  fun w => (inr (p ← procs w !! pid; returncode p), w).

Definition get_args (pid : nat) : M (list str) :=
  fun w => (inr (default [] (args <$> procs w !! pid)), w).

(** [line.decode()] *)
Definition py_decode (line : bytes) : M str :=
  match decode line with
  | Some s => ret s
  | None => raise (UnicodeDecodeError line)
  end.

(** ** The runner *)

(** The body of the loop, [_logger.info(line.decode().rstrip())]. *)
Definition log_line (line : bytes) : M unit :=
  s <- py_decode line ;; info (rstrip s) [].

Definition pending (pid : nat) (w : world) : nat :=
  match procs w !! pid with
  | Some p => length (unread (stdout p))
  | None => 0%nat
  end.

Definition inspect {A} (a : A) : { b | a = b } := exist _ a eq_refl.

(** [for line in p.stdout: _logger.info(line.decode().rstrip())]: every
    line read shortens what the pipe still holds, which is why the loop
    ends. *)
Equations? for_stdout (pid : nat) (w : world) : (exn + unit) * world
  by wf (pending pid w) lt :=
for_stdout pid w with inspect (next_line pid w) := {
  | exist _ (None, w1) _ := (inr tt, w1);
  | exist _ (Some line, w1) Hn with inspect (log_line line w1) := {
    | exist _ (inl e, w2) _ := (inl e, w2);
    | exist _ (inr _, w2) Hb := for_stdout pid w2 } }.
Proof.
  assert (Hlen : forall bs l r, read_line bs = (l, r) ->
                 length bs = (length l + length r)%nat).
  { induction bs as [|b bs IH]; intros l r; simpl.
    - intros [= <- <-]; reflexivity.
    - destruct (Byte.eqb b x0a); [intros [= <- <-]; reflexivity|].
      destruct (read_line bs) as [l' r'].
      intros [= <- <-]; simpl. rewrite (IH l' r' eq_refl); reflexivity. }
  assert (Hb' : procs w2 = procs w1).
  { revert Hb. unfold log_line, py_decode, bind, ret, raise, info.
    destruct (decode line); intros H; inversion H; reflexivity. }
  revert Hn. unfold pending, next_line. rewrite Hb'.
  destruct (procs w !! pid) as [p|] eqn:Hp; [|discriminate].
  destruct (read_line (unread (stdout p))) as [[|b l'] r] eqn:Hr;
    [discriminate|].
  intros [= <- <-]; simpl.
  rewrite list_lookup_alter_eq, Hp; simpl.
  rewrite (Hlen _ _ _ Hr); simpl; lia.
Qed.

(** [workdir if workdir else '.'] *)
Definition or_dot (workdir : option str) : str :=
  match workdir with
  | Some d => if truthy d then d else lit "."
  | None => lit "."
  end.

(** The format of the line logged before the launch. *)
Definition executing_fmt : str :=
  lit "Executing gradle command: " ++ dquote ++ lit "%s" ++ dquote
  ++ lit " in directory: " ++ dquote ++ lit "%s" ++ dquote.

(** An exit status is true when it is not zero; [None] is false. *)
Definition nonzero (rc : option Z) : bool :=
  match rc with
  | Some z => negb (z =? 0)%Z
  | None => false
  end.

(** [run], with its variadic arguments as the list [args] and its keyword
    arguments [gradle_opts=''], [workdir=None] and [check=True] explicit. *)
Definition run (args : list str) (gradle_opts : str)
    (workdir : option str) (check : bool) : M CompletedProcess :=
  new_env <- dict_copy Environ ;;
  (if truthy gradle_opts
   then setitem new_env (lit "GRADLE_OPTS") gradle_opts
   else ret tt) ;;
  setitem new_env (lit "ADB_INSTALL_TIMEOUT") ADB_INSTALL_TIMEOUT ;;
  let command := lit "./gradlew" :: args in
  info executing_fmt [join (lit " ") command; or_dot workdir] ;;
  p <- Popen command workdir new_env ;;
  finally
    (for_stdout p ;;
     communicate p ;;
     rc <- get_returncode p ;;
     if check && nonzero rc
     then a <- get_args p ;;
          raise (CalledProcessError (default 0%Z rc) a (StdoutOf p) None)
     else ret tt)
    (popen_exit p) ;;
  a <- get_args p ;;
  rc <- get_returncode p ;;
  ret {| cp_args := a; cp_returncode := rc;
         cp_stdout := StdoutOf p; cp_stderr := None |}.


(** ** Observations *)

(** The interactions a computation adds to the trace of [w]. *)
Definition events_of {A} (m : M A) (w : world) : list event :=
  drop (length (trace w)) (trace (m w).2).

(** The lines of a stream of octets as iteration over a binary file cuts
    them: after every line feed, the last one possibly unterminated.  They
    are what successive calls of [read_line] return ([lines_read_line]
    below). *)
Fixpoint lines (bs : bytes) : list bytes :=
  match bs with
  | [] => []
  | b :: r =>
    if Byte.eqb b x0a then [b] :: lines r
    else match lines r with
         | [] => [[b]]
         | l :: ls => (b :: l) :: ls
         end
  end.

(** A line that [decode] accepts. *)
Definition decodable (line : bytes) : bool :=
  match decode line with Some _ => true | None => false end.

(** The text logged for a line. *)
Definition rendered (line : bytes) : str :=
  rstrip (default [] (decode line)).

(** What the loop does with the lines not yet read: the interactions, the
    line that failed to decode if there is one, and the octets it leaves in
    the pipe. *)
Fixpoint loop_outcome (pid : nat) (ls : list bytes)
  : list event * option bytes * bytes :=
  match ls with
  | [] => ([Eof pid], None, [])
  | l :: ls' =>
    match decode l with
    | Some s =>
      let '(t, bad, rest) := loop_outcome pid ls' in
      (Read pid l :: Info (rstrip s) [] :: t, bad, rest)
    | None => ([Read pid l], Some l, concat ls')
    end
  end.

(** The environment [run] builds for the child from the parent's. *)
Definition built_env (gradle_opts : str) (parent : gmap str str)
  : gmap str str :=
  <[lit "ADB_INSTALL_TIMEOUT" := ADB_INSTALL_TIMEOUT]>
    (if truthy gradle_opts
     then <[lit "GRADLE_OPTS" := gradle_opts]> parent
     else parent).

(** What a computation returns or raises, and the world it leaves. *)
Definition outcome {A} (m : M A) (w : world) : exn + A := (m w).1.
Definition after {A} (m : M A) (w : world) : world := (m w).2.
Definition raises {A} (m : M A) (w : world) : Prop :=
  exists e, outcome m w = inl e.

(** Projections of a trace: the arguments of the calls to the launch
    primitive, the programs started, the lines read and the records
    logged. *)
Definition launch_commands (t : list event) : list (list str) :=
  omap (fun e => match e with Launch c _ _ => Some c | _ => None end) t.
Definition launch_cwds (t : list event) : list (option str) :=
  omap (fun e => match e with Launch _ d _ => Some d | _ => None end) t.
Definition launch_envs (t : list event) : list (gmap str str) :=
  omap (fun e => match e with Launch _ _ m => Some m | _ => None end) t.
Definition started (t : list event) : list (nat * child) :=
  omap (fun e => match e with Started p c => Some (p, c) | _ => None end) t.
Definition reads (t : list event) : list bytes :=
  omap (fun e => match e with Read _ l => Some l | _ => None end) t.
Definition infos (t : list event) : list (str * list str) :=
  omap (fun e => match e with Info m a => Some (m, a) | _ => None end) t.

(** The interactions by which the parent learns that the child is done
    writing or has exited. *)
Definition final_event (e : event) : bool :=
  match e with
  | Eof _ | Close _ | Wait _ _ => true
  | _ => false
  end.

(** The processes a computation leaves that were not there before. *)
Definition spawned {A} (m : M A) (w : world) : list popen :=
  drop (length (procs w)) (procs (after m w)).

(** What the loop does with one decodable line. *)
Definition echo (pid : nat) (line : bytes) : list event :=
  [Read pid line; Info (rendered line) []].

(** The interactions that release the child: closing the pipe and
    reaping the process. *)
Definition releases (e : event) : bool :=
  match e with
  | Close _ | Wait _ _ => true
  | _ => false
  end.

(** Octets below 0x80 only. *)
Definition ascii_only (bs : bytes) : bool :=
  forallb (fun b => Byte.to_N b <? 0x80) bs.

(** *** Sample worlds *)

(** [os.fsencode] where the filesystem encoding is UTF-8 with the
    [surrogateescape] handler: a surrogate outside U+DC80..U+DCFF is
    refused. *)
Definition utf8_surrogateescape (s : str) : bool :=
  forallb (fun c => negb ((0xD800 <=? c) && (c <=? 0xDFFF))
                    || ((0xDC80 <=? c) && (c <=? 0xDCFF))) s.

(** A machine on which every launch runs the program [c]. *)
Definition machine (e : gmap str str) (c : child) : world :=
  {| environ := e; getcwd := lit "/repo"; execve := fun _ _ _ => inr c;
     fsencodable := utf8_surrogateescape;
     dicts := []; procs := []; trace := [] |}.

(** A build that prints two lines and fails with status 3. *)
Definition failing_build : child :=
  {| output := blit "> Task :lint" ++ [x0d; x0a] ++ blit "FAILED  " ++ [x0a];
     status := 3 |}.

(** A build that succeeds, printing one line or another. *)
Definition build_ok : child :=
  {| output := blit "BUILD SUCCESSFUL" ++ [x0a]; status := 0 |}.
Definition build_ok' : child :=
  {| output := blit "up to date" ++ [x0a]; status := 0 |}.

(** A program whose first line is not UTF-8 and that exits with 0. *)
Definition garbled : child :=
  {| output := [xff; x0a] ++ blit "b" ++ [x0a]; status := 0 |}.

(** A machine on which no launch succeeds: the kernel answers [errno]. *)
Definition broken (e : gmap str str) (errno : Z) : world :=
  {| environ := e; getcwd := lit "/repo"; execve := fun _ _ _ => inl errno;
     fsencodable := utf8_surrogateescape;
     dicts := []; procs := []; trace := [] |}.

Definition home : gmap str str :=
  {[ lit "HOME" := lit "/root"; lit "GRADLE_OPTS" := lit "-Xmx1g" ]}.

(** ** Sanity checks of the model *)

Example P_of_strings : P (lit "sdk") (lit "33") = lit "-Psdk=33".
Proof. reflexivity. Qed.

Example P_of_int : P (lit "jobs") 4%Z = lit "-Pjobs=4".
Proof. reflexivity. Qed.

Example P_of_bool : P (lit "ci") true = lit "-Pci=True".
Proof. reflexivity. Qed.

Example decode_ascii : decode (blit "ok") = Some (lit "ok").
Proof. reflexivity. Qed.

Example decode_euro : decode [xe2; x82; xac] = Some [0x20AC].
Proof. reflexivity. Qed.

Example decode_astral : decode [xf0; x9f; x98; x80] = Some [0x1F600].
Proof. reflexivity. Qed.

Example decode_stray : decode [xff] = None.
Proof. reflexivity. Qed.

Example decode_overlong : decode [xc0; x80] = None.
Proof. reflexivity. Qed.

Example decode_surrogate : decode [xed; xa0; x80] = None.
Proof. reflexivity. Qed.

Example decode_truncated : decode [xe2; x82] = None.
Proof. reflexivity. Qed.

Example rstrip_crlf : rstrip (lit "a b  " ++ [13; 10]) = lit "a b".
Proof. reflexivity. Qed.

Example rstrip_keeps_inner : rstrip (lit "  a  b") = lit "  a  b".
Proof. reflexivity. Qed.

Example lines_unterminated :
  lines (blit "a" ++ [x0a; x0a] ++ blit "b")
  = [blit "a" ++ [x0a]; [x0a]; blit "b"].
Proof. reflexivity. Qed.

(** The store is shared: writing through [Environ] changes [os.environ],
    whereas writing through a copy does not. *)
Example setitem_through_alias w k v :
  environ (after (setitem Environ k v) w) = <[k:=v]> (environ w).
Proof. reflexivity. Qed.

Example setitem_through_copy w k v :
  environ (after (d <- dict_copy Environ ;; setitem d k v) w) = environ w.
Proof. reflexivity. Qed.

(** The whole trace of a failing build run with [check=False]. *)
Example trace_of_failing_build :
  events_of (run [lit "build"] [] None false) (machine home failing_build)
  = [ Info executing_fmt [lit "./gradlew build"; lit "."];
      Launch [lit "./gradlew"; lit "build"] None
        (<[lit "ADB_INSTALL_TIMEOUT" := lit "5"]> home);
      Started 0 failing_build;
      Read 0 (blit "> Task :lint" ++ [x0d; x0a]);
      Info (lit "> Task :lint") [];
      Read 0 (blit "FAILED  " ++ [x0a]);
      Info (lit "FAILED") [];
      Eof 0; Close 0; Wait 0 3 ].
Proof. vm_compute. reflexivity. Qed.

(** ** Facts about the loop *)

Lemma for_stdout_step pid w :
  for_stdout pid w =
  match next_line pid w with
  | (None, w1) => (inr tt, w1)
  | (Some line, w1) =>
    match log_line line w1 with
    | (inl e, w2) => (inl e, w2)
    | (inr _, w2) => for_stdout pid w2
    end
  end.
Proof.
  funelim (for_stdout pid w);
    match goal with E : next_line _ _ = _ |- _ => rewrite E end;
    try match goal with E : log_line _ _ = _ |- _ => rewrite E end;
    reflexivity.
Qed.

Lemma read_line_nil_inv bs r : read_line bs = ([], r) -> bs = [].
Proof.
  destruct bs as [|b bs]; [reflexivity|]; simpl.
  destruct (Byte.eqb b x0a); [discriminate|].
  destruct (read_line bs); discriminate.
Qed.

Lemma lines_read_line bs l r :
  bs <> [] -> read_line bs = (l, r) ->
  lines bs = l :: lines r /\ (length r < length bs)%nat.
Proof.
  revert l r; induction bs as [|b bs IH]; intros l r Hne; [done|]; simpl.
  destruct (Byte.eqb b x0a).
  - intros [= <- <-]. split; [reflexivity | lia].
  - destruct (read_line bs) as [l' r'] eqn:Hr. intros [= <- <-].
    destruct bs as [|b' bs'].
    + simpl in Hr. injection Hr as <- <-. split; [reflexivity | simpl; lia].
    + destruct (IH l' r' ltac:(done) eq_refl) as [-> Hlt].
      split; [reflexivity | simpl in *; lia].
Qed.

Lemma concat_lines bs : concat (lines bs) = bs.
Proof.
  induction bs as [|b bs IH]; [reflexivity|]; simpl.
  destruct (Byte.eqb b x0a); simpl; [by rewrite IH|].
  destruct (lines bs) as [|l ls]; simpl in *; by rewrite <- IH.
Qed.

Lemma lookup_last_proc {A} (ps : list A) p :
  (ps ++ [p]) !! length ps = Some p.
Proof. by rewrite list_lookup_middle. Qed.

Lemma alter_last_proc {A} (f : A -> A) (ps : list A) p :
  alter f (length ps) (ps ++ [p]) = ps ++ [f p].
Proof.
  replace (length ps) with (length ps + 0)%nat by lia.
  by rewrite alter_app_r.
Qed.

(** The loop in closed form, for the process allocated last. *)
Lemma for_stdout_spec bs : forall w ps a d e cl x rc,
  procs w = ps ++ [{| args := a; dir := d; child_env := e;
                      stdout := {| unread := bs; closed := cl |};
                      exits := x; returncode := rc |}] ->
  for_stdout (length ps) w =
  let '(t, bad, rest) := loop_outcome (length ps) (lines bs) in
  (match bad with
   | None => inr tt
   | Some l => inl (UnicodeDecodeError l)
   end,
   {| environ := environ w; getcwd := getcwd w; execve := execve w;
     fsencodable := fsencodable w;
      dicts := dicts w;
      procs := ps ++ [{| args := a; dir := d; child_env := e;
                         stdout := {| unread := rest; closed := cl |};
                         exits := x; returncode := rc |}];
      trace := trace w ++ t |}).
Proof.
  induction bs as [bs IH] using (induction_ltof1 _ (@length byte)).
  unfold ltof in IH. intros w ps a d e cl x rc Hw.
  rewrite for_stdout_step. unfold next_line.
  rewrite Hw, lookup_last_proc; simpl.
  destruct (read_line bs) as [[|b l] r] eqn:Hr.
  - apply read_line_nil_inv in Hr as ->. simpl.
    unfold emit. rewrite Hw. reflexivity.
  - assert (Hne : bs <> []) by (intros ->; discriminate).
    destruct (lines_read_line _ _ _ Hne Hr) as [-> Hlt].
    remember (b :: l) as line eqn:Hline.
    unfold update_proc. rewrite Hw, alter_last_proc.
    unfold log_line, py_decode, bind. simpl loop_outcome.
    destruct (decode line) as [s|] eqn:Hd.
    + unfold ret, info.
      erewrite (IH r Hlt); [|reflexivity].
      destruct (loop_outcome (length ps) (lines r)) as [[t bad] rest].
      simpl. do 2 f_equal. by rewrite <- !app_assoc.
    + unfold raise. rewrite concat_lines. reflexivity.
Qed.

(** ** The runner in closed form *)

#[local] Arguments lit : simpl never.
#[local] Arguments join : simpl never.
#[local] Arguments executing_fmt : simpl never.
#[local] Arguments ADB_INSTALL_TIMEOUT : simpl never.

(** Lines 31 to 35: the copy of [os.environ] and the two assignments. *)
Lemma build_env_spec {B} opts (k : ref -> M B) w :
  (new_env <- dict_copy Environ ;;
   (if truthy opts
    then setitem new_env (lit "GRADLE_OPTS") opts
    else ret tt) ;;
   setitem new_env (lit "ADB_INSTALL_TIMEOUT") ADB_INSTALL_TIMEOUT ;;
   k new_env) w
  = k (Dict (length (dicts w)))
      (set_dicts (dicts w ++ [built_env opts (environ w)]) w).
Proof.
  unfold bind, dict_copy, setitem, ret, built_env.
  destruct (truthy opts); simpl; by rewrite !alter_last_proc.
Qed.

Lemma loop_outcome_drained pid ls t rest :
  loop_outcome pid ls = (t, None, rest) -> rest = [].
Proof.
  revert t; induction ls as [|l ls IH]; intros t; simpl.
  - by intros [= _ <-].
  - destruct (decode l); [|discriminate].
    destruct (loop_outcome pid ls) as [[t' bad'] rest'].
    intros [= _ -> ->]. by eapply IH.
Qed.

(** The [with] block, for a process just started. *)
Lemma with_block_spec check w ps cmd d e c :
  procs w = ps ++ [{| args := cmd; dir := d; child_env := e;
                      stdout := {| unread := output c; closed := false |};
                      exits := status c; returncode := None |}] ->
  let pid := length ps in
  finally
    (for_stdout pid ;;
     communicate pid ;;
     rc <- get_returncode pid ;;
     if check && nonzero rc
     then a <- get_args pid ;;
          raise (CalledProcessError (default 0%Z rc) a (StdoutOf pid) None)
     else ret tt)
    (popen_exit pid) w =
  let '(t, bad, rest) := loop_outcome pid (lines (output c)) in
  (match bad with
   | Some l => inl (UnicodeDecodeError l)
   | None =>
     if check && negb (status c =? 0)%Z
     then inl (CalledProcessError (status c) cmd (StdoutOf pid) None)
     else inr tt
   end,
   {| environ := environ w; getcwd := getcwd w; execve := execve w;
     fsencodable := fsencodable w;
      dicts := dicts w;
      procs := ps ++
        [{| args := cmd; dir := d; child_env := e;
            stdout := {| unread := rest; closed := true |};
            exits := status c; returncode := Some (status c) |}];
      trace := trace w ++ t ++ [Close pid; Wait pid (status c)] |}).
Proof.
  intros Hw pid. subst pid. unfold finally, bind at 1.
  rewrite (for_stdout_spec _ _ _ _ _ _ _ _ _ Hw).
  destruct (loop_outcome (length ps) (lines (output c)))
    as [[t bad] rest] eqn:Ho.
  destruct bad as [l|].
  - unfold popen_exit, bind, close, wait, update_proc, reaped, with_stdout, emit; simpl.
    repeat (simpl; rewrite ?lookup_last_proc, ?alter_last_proc).
    by rewrite <- !app_assoc.
  - apply loop_outcome_drained in Ho as ->.
    unfold communicate, popen_exit, get_returncode, get_args, bind, ret,
      raise, read_all, close, wait, update_proc, reaped, with_stdout, emit.
    repeat (simpl; rewrite ?lookup_last_proc, ?alter_last_proc).
    destruct check, (status c =? 0)%Z;
      repeat (simpl; rewrite ?lookup_last_proc, ?alter_last_proc);
      by rewrite <- !app_assoc.
Qed.

Lemma run_spec args opts wd check w :
  let e := built_env opts (environ w) in
  let cmd := lit "./gradlew" :: args in
  let pid := length (procs w) in
  let t0 := [Info executing_fmt [join (lit " ") cmd; or_dot wd];
             Launch cmd wd e] in
  run args opts wd check w =
  match launch cmd wd e w with
  | inl x =>
    (inl x,
     {| environ := environ w; getcwd := getcwd w; execve := execve w;
     fsencodable := fsencodable w;
        dicts := dicts w ++ [e]; procs := procs w;
        trace := trace w ++ t0 |})
  | inr c =>
    let '(t, bad, rest) := loop_outcome pid (lines (output c)) in
    (match bad with
     | Some l => inl (UnicodeDecodeError l)
     | None =>
       if check && negb (status c =? 0)%Z
       then inl (CalledProcessError (status c) cmd (StdoutOf pid) None)
       else inr {| cp_args := cmd; cp_returncode := Some (status c);
                   cp_stdout := StdoutOf pid; cp_stderr := None |}
     end,
     {| environ := environ w; getcwd := getcwd w; execve := execve w;
     fsencodable := fsencodable w;
        dicts := dicts w ++ [e];
        procs := procs w ++
          [{| args := cmd; dir := child_dir wd w; child_env := e;
              stdout := {| unread := rest; closed := true |};
              exits := status c; returncode := Some (status c) |}];
        trace := trace w ++ t0 ++ [Started pid c] ++ t
                 ++ [Close pid; Wait pid (status c)] |})
  end.
Proof.
  intros e cmd pid t0. subst pid.
  unfold run. rewrite build_env_spec. fold e cmd.
  unfold bind at 1, info. unfold bind at 1, Popen. simpl.
  rewrite lookup_last_proc. simpl.
  change (launch cmd wd ?e0 _) with (launch cmd wd e0 w). fold e.
  destruct (launch cmd wd e w) as [errno|c].
  { unfold emit; simpl. by rewrite <- !app_assoc. }
  unfold bind at 1.
  erewrite with_block_spec; [|reflexivity].
  destruct (loop_outcome (length (procs w)) (lines (output c)))
    as [[t bad] rest].
  unfold get_args, get_returncode, bind, ret; simpl.
  destruct bad as [l|]; [|destruct (check && negb (status c =? 0)%Z)];
    simpl; rewrite ?lookup_last_proc; simpl;
    do 2 f_equal; by rewrite <- !app_assoc.
Qed.

Lemma events_of_run args opts wd check w :
  let e := built_env opts (environ w) in
  let cmd := lit "./gradlew" :: args in
  let pid := length (procs w) in
  events_of (run args opts wd check) w =
  [Info executing_fmt [join (lit " ") cmd; or_dot wd]; Launch cmd wd e] ++
  match launch cmd wd e w with
  | inl _ => []
  | inr c =>
    [Started pid c] ++ (loop_outcome pid (lines (output c))).1.1
    ++ [Close pid; Wait pid (status c)]
  end.
Proof.
  intros e cmd pid. unfold events_of. rewrite run_spec.
  fold e cmd pid.
  destruct (launch cmd wd e w) as [errno|c].
  - simpl. by rewrite drop_app_length.
  - destruct (loop_outcome pid (lines (output c))) as [[t bad] rest].
    simpl. by rewrite drop_app_length.
Qed.

(** The loop only reads and logs. *)
Lemma loop_events_omap {B} (f : event -> option B) pid ls :
  (forall p l, f (Read p l) = None) ->
  (forall m a, f (Info m a) = None) ->
  (forall p, f (Eof p) = None) ->
  omap f (loop_outcome pid ls).1.1 = [].
Proof.
  intros Hr Hi He. induction ls as [|l ls IH]; simpl.
  - by rewrite He.
  - destruct (decode l) as [s|]; simpl; [|by rewrite Hr].
    destruct (loop_outcome pid ls) as [[t bad] rest]; simpl in *.
    by rewrite Hr, Hi.
Qed.

(** Projecting the trace of [run] on what concerns the launch. *)
Ltac project_launch :=
  rewrite events_of_run; cbv zeta;
  match goal with
  | |- context [launch ?c ?d ?e ?w] => destruct (launch c d e w)
  end;
  rewrite ?omap_app, ?loop_events_omap by done; reflexivity.

Lemma launch_commands_run args opts wd check w :
  launch_commands (events_of (run args opts wd check) w)
  = [lit "./gradlew" :: args].
Proof. unfold launch_commands. project_launch. Qed.

Lemma launch_cwds_run args opts wd check w :
  launch_cwds (events_of (run args opts wd check) w) = [wd].
Proof. unfold launch_cwds. project_launch. Qed.

Lemma launch_envs_run args opts wd check w :
  launch_envs (events_of (run args opts wd check) w)
  = [built_env opts (environ w)].
Proof. unfold launch_envs. project_launch. Qed.

Lemma started_run args opts wd check w :
  started (events_of (run args opts wd check) w) =
  match launch (lit "./gradlew" :: args) wd (built_env opts (environ w)) w with
  | inl _ => []
  | inr c => [(length (procs w), c)]
  end.
Proof. unfold started. project_launch. Qed.

Lemma spawned_run args opts wd check w :
  let e := built_env opts (environ w) in
  let cmd := lit "./gradlew" :: args in
  spawned (run args opts wd check) w =
  match launch cmd wd e w with
  | inl _ => []
  | inr c =>
    [{| args := cmd; dir := child_dir wd w; child_env := e;
        stdout := {| unread := (loop_outcome (length (procs w))
                                  (lines (output c))).2;
                     closed := true |};
        exits := status c; returncode := Some (status c) |}]
  end.
Proof.
  intros e cmd. unfold spawned, after. rewrite run_spec. fold e cmd.
  destruct (launch cmd wd e w) as [errno|c].
  - simpl. by rewrite drop_ge.
  - destruct (loop_outcome _ (lines (output c))) as [[t bad] rest].
    simpl. by rewrite drop_app_length.
Qed.

Lemma environ_after_run args opts wd check w :
  environ (after (run args opts wd check) w) = environ w.
Proof.
  unfold after. rewrite run_spec.
  destruct (launch _ _ _ w) as [errno|c]; [reflexivity|].
  by destruct (loop_outcome _ (lines (output c))) as [[t bad] rest].
Qed.

Lemma keys_differ : lit "ADB_INSTALL_TIMEOUT" <> lit "GRADLE_OPTS".
Proof. intros H. vm_compute in H. discriminate. Qed.

(** ** The properties *)

(** C6. For all names and values, strings or values that [format] turns
    into strings, [P] returns exactly the token [-P<name>=<value>]: the two
    inputs as formatted (a string as it is) between the fixed [-P] and [=],
    three characters longer than them together, and with no whitespace
    other than what the inputs contain.  [P] is a function into [str], not
    a computation in [M]: it touches no state and raises nothing. *)
Theorem P_is_the_property_flag {A B} `{Format A, Format B}
    (name : A) (value : B) (n v : str) :
  P n v = lit "-P" ++ n ++ lit "=" ++ v
  /\ P name value = lit "-P" ++ format name ++ lit "=" ++ format value
  /\ length (P name value)
     = (3 + length (format name) + length (format value))%nat
  /\ List.filter isspace (P name value)
     = List.filter isspace (format name)
       ++ List.filter isspace (format value).
Proof.
  unfold P. split; [reflexivity|]. split; [reflexivity|]. split.
  - rewrite !length_app. change (length (lit "-P")) with 2%nat.
    change (length (lit "=")) with 1%nat. lia.
  - rewrite !List.filter_app. reflexivity.
Qed.

(** C5. For every list of arguments, [run] calls the launch primitive
    once, with the command vector [./gradlew] followed by the arguments as
    given, and a process that starts has that vector as its [args]. *)
Theorem run_command_is_gradlew_then_args argv opts wd check w :
  launch_commands (events_of (run argv opts wd check) w)
  = [lit "./gradlew" :: argv]
  /\ args <$> spawned (run argv opts wd check) w
     = (fun _ => lit "./gradlew" :: argv)
         <$> started (events_of (run argv opts wd check) w).
Proof.
  split; [apply launch_commands_run|].
  rewrite spawned_run, started_run. cbv zeta.
  by destruct (launch _ _ _ w).
Qed.

(** C3. The environment [run] passes to the launch primitive, which is the
    environment of the process that starts, holds under [GRADLE_OPTS] what
    the parent's environment holds (nothing when it holds nothing) if
    [gradle_opts] is empty, and exactly [gradle_opts] otherwise. *)
Theorem run_gradle_opts_in_child_env args opts wd check w :
  exists e,
    launch_envs (events_of (run args opts wd check) w) = [e]
    /\ child_env <$> spawned (run args opts wd check) w
       = (fun _ => e) <$> started (events_of (run args opts wd check) w)
    /\ e !! lit "GRADLE_OPTS" =
       match opts with
       | [] => environ w !! lit "GRADLE_OPTS"
       | _ :: _ => Some opts
       end.
Proof.
  eexists; split; [apply launch_envs_run|]. split.
  { rewrite spawned_run, started_run. cbv zeta.
    by destruct (launch _ _ _ w). }
  unfold built_env. rewrite lookup_insert_ne by apply keys_differ.
  destruct opts; simpl; [reflexivity | apply lookup_insert_eq].
Qed.

(** C4. Whatever the arguments and the parent's environment, the
    environment [run] passes to the launch primitive, which is the
    environment of the process that starts, maps [ADB_INSTALL_TIMEOUT] to
    the string [5]. *)
Theorem run_adb_install_timeout_is_5 args opts wd check w :
  exists e,
    launch_envs (events_of (run args opts wd check) w) = [e]
    /\ child_env <$> spawned (run args opts wd check) w
       = (fun _ => e) <$> started (events_of (run args opts wd check) w)
    /\ e !! lit "ADB_INSTALL_TIMEOUT" = Some (lit "5").
Proof.
  eexists; split; [apply launch_envs_run|]. split.
  { rewrite spawned_run, started_run. cbv zeta.
    by destruct (launch _ _ _ w). }
  unfold built_env. apply lookup_insert_eq.
Qed.

(** C8. The [workdir] argument reaches the launch primitive unchanged as
    its [cwd], and a process that starts runs in the parent's current
    directory when [workdir] is [None], in [workdir] (taken from that
    directory) otherwise. *)
Theorem run_workdir_passed_unchanged args opts wd check w :
  launch_cwds (events_of (run args opts wd check) w) = [wd]
  /\ dir <$> spawned (run args opts wd check) w
     = (fun _ => match wd with
                 | None => getcwd w
                 | Some d => child_dir (Some d) w
                 end)
         <$> started (events_of (run args opts wd check) w).
Proof.
  split; [apply launch_cwds_run|].
  rewrite spawned_run, started_run. cbv zeta.
  destruct (launch _ _ _ w); [reflexivity|]. by destruct wd.
Qed.

(** C9. [run] leaves [os.environ] as it found it: the mapping it changes
    is a copy.  The environment it passes to the launch primitive, which is
    the environment of the process that starts, agrees with the parent's
    on every variable other than [GRADLE_OPTS] and [ADB_INSTALL_TIMEOUT]. *)
Theorem run_does_not_touch_parent_env args opts wd check w :
  environ (after (run args opts wd check) w) = environ w
  /\ exists e,
       launch_envs (events_of (run args opts wd check) w) = [e]
       /\ child_env <$> spawned (run args opts wd check) w
          = (fun _ => e) <$> started (events_of (run args opts wd check) w)
       /\ delete (lit "GRADLE_OPTS") (delete (lit "ADB_INSTALL_TIMEOUT") e)
          = delete (lit "GRADLE_OPTS")
              (delete (lit "ADB_INSTALL_TIMEOUT") (environ w)).
Proof.
  split; [apply environ_after_run|].
  eexists; split; [apply launch_envs_run|]. split.
  { rewrite spawned_run, started_run. cbv zeta.
    by destruct (launch _ _ _ w). }
  unfold built_env. apply map_eq. intros k.
  destruct (decide (k = lit "GRADLE_OPTS")) as [->|Hg];
    [by rewrite !lookup_delete_eq|].
  rewrite !(lookup_delete_ne _ (lit "GRADLE_OPTS")) by done.
  destruct (decide (k = lit "ADB_INSTALL_TIMEOUT")) as [->|Ha];
    [by rewrite !lookup_delete_eq|].
  rewrite !lookup_delete_ne, lookup_insert_ne by done.
  destruct (truthy opts); [by rewrite lookup_insert_ne | reflexivity].
Qed.

(** *** What is raised and what is returned *)

Lemma started_run_inv args opts wd check w pid c :
  started (events_of (run args opts wd check) w) = [(pid, c)] ->
  launch (lit "./gradlew" :: args) wd (built_env opts (environ w)) w = inr c
  /\ pid = length (procs w).
Proof.
  rewrite started_run. destruct (launch _ _ _ w); [discriminate|].
  by intros [= <- <-].
Qed.

Lemma loop_outcome_decodable pid ls :
  forallb decodable ls = true ->
  (loop_outcome pid ls).1.2 = None.
Proof.
  induction ls as [|l ls IH]; [reflexivity|]; simpl.
  intros [Hl Hls]%andb_prop. unfold decodable in Hl.
  destruct (decode l); [|discriminate].
  specialize (IH Hls).
  by destruct (loop_outcome pid ls) as [[t bad] rest].
Qed.

Lemma outcome_run args opts wd check w c :
  launch (lit "./gradlew" :: args) wd (built_env opts (environ w)) w = inr c ->
  outcome (run args opts wd check) w =
  match (loop_outcome (length (procs w)) (lines (output c))).1.2 with
  | Some l => inl (UnicodeDecodeError l)
  | None =>
    if check && negb (status c =? 0)%Z
    then inl (CalledProcessError (status c) (lit "./gradlew" :: args)
                (StdoutOf (length (procs w))) None)
    else inr {| cp_args := lit "./gradlew" :: args;
                cp_returncode := Some (status c);
                cp_stdout := StdoutOf (length (procs w));
                cp_stderr := None |}
  end.
Proof.
  intros He. unfold outcome. rewrite run_spec. cbv zeta. rewrite He.
  by destruct (loop_outcome _ (lines (output c))) as [[t bad] rest].
Qed.

Lemma stdout_after_run args opts wd check w c :
  launch (lit "./gradlew" :: args) wd (built_env opts (environ w)) w = inr c ->
  stdout <$> procs (after (run args opts wd check) w) !! length (procs w)
  = Some {| unread := (loop_outcome (length (procs w))
                         (lines (output c))).2;
            closed := true |}.
Proof.
  intros He. unfold after. rewrite run_spec. cbv zeta. rewrite He.
  destruct (loop_outcome _ (lines (output c))) as [[t bad] rest]; simpl.
  by rewrite lookup_last_proc.
Qed.

Lemma loop_outcome_rest pid ls :
  (loop_outcome pid ls).1.2 = None -> (loop_outcome pid ls).2 = [].
Proof.
  destruct (loop_outcome pid ls) as [[t bad] rest] eqn:Ho; simpl.
  intros ->. by eapply loop_outcome_drained.
Qed.

(** C1, as the code has it.  When the child is started and every line of
    its output is valid UTF-8, [run] raises if and only if [check] is true
    and the exit status is not zero; what it raises then is a
    [CalledProcessError] with that status, and what it returns otherwise is
    a record with that status. *)
Theorem run_raises_iff_checked_failure args opts wd check w pid c :
  started (events_of (run args opts wd check) w) = [(pid, c)] ->
  forallb decodable (lines (output c)) = true ->
  (raises (run args opts wd check) w <-> check = true /\ status c <> 0%Z)
  /\ match outcome (run args opts wd check) w with
     | inl e => exists cmd out err,
                  e = CalledProcessError (status c) cmd out err
     | inr r => cp_returncode r = Some (status c)
     end.
Proof.
  intros Hs Hd. apply started_run_inv in Hs as [He ->].
  unfold raises. rewrite (outcome_run _ _ _ _ _ _ He).
  rewrite (loop_outcome_decodable _ _ Hd).
  destruct check, (Z.eqb_spec (status c) 0) as [Hz|Hz]; simpl.
  - split; [|reflexivity]. split; [intros [e [=]] | intros [_ ?]; done].
  - split; [|by eauto]. split; [done | by eauto].
  - split; [|reflexivity]. split; [intros [e [=]] | intros [[=] _]].
  - split; [|reflexivity]. split; [intros [e [=]] | intros [[=] _]].
Qed.

(** A run on which the theorem applies: a build that fails with status 3,
    with [check] left true. *)
Lemma run_raises_iff_checked_failure_witness :
  (raises (run [lit "build"] [] None true) (machine home failing_build)
   <-> true = true /\ status failing_build <> 0%Z)
  /\ match outcome (run [lit "build"] [] None true)
             (machine home failing_build) with
     | inl e => exists cmd out err,
                  e = CalledProcessError (status failing_build) cmd out err
     | inr r => cp_returncode r = Some (status failing_build)
     end.
Proof.
  apply (run_raises_iff_checked_failure _ _ _ _ _ 0%nat).
  - vm_compute. reflexivity.
  - vm_compute. reflexivity.
Defined.

(** C1 as stated fails: the program [garbled] exits with status 0 and
    [check] is false, yet [run] raises, because the first line of the
    output is not valid UTF-8 and [decode] refuses it. *)
Lemma run_raises_on_undecodable_line :
  started (events_of (run [lit "build"] [] None false)
             (machine home garbled)) = [(0%nat, garbled)]
  /\ status garbled = 0%Z
  /\ outcome (run [lit "build"] [] None false) (machine home garbled)
     = inl (UnicodeDecodeError [xff; x0a])
  /\ ~ (raises (run [lit "build"] [] None false) (machine home garbled)
        <-> false = true /\ status garbled <> 0%Z).
Proof.
  assert (Ho : outcome (run [lit "build"] [] None false)
                 (machine home garbled)
               = inl (UnicodeDecodeError [xff; x0a]))
    by (vm_compute; reflexivity).
  split; [vm_compute; reflexivity|]. split; [reflexivity|].
  split; [exact Ho|].
  intros [Hr _]. destruct Hr as [[=] _]. unfold raises. eauto.
Qed.

(** C2, as the code has it.  What [run] raises on a checked failure carries
    the exit status, the command vector and, as its output, a reference to
    the [stdout] object of the process; what it returns carries the same
    three.  That object has by then been read to its end and closed, so
    that reading from it raises [ValueError]; [stderr] is [None]. *)
Theorem run_carries_status_command_and_stream args opts wd check w pid c :
  started (events_of (run args opts wd check) w) = [(pid, c)] ->
  match outcome (run args opts wd check) w with
  | inl (CalledProcessError rc cmd out err) =>
    rc = status c /\ cmd = lit "./gradlew" :: args
    /\ out = StdoutOf pid /\ err = None
    /\ stdout <$> procs (after (run args opts wd check) w) !! pid
       = Some {| unread := []; closed := true |}
    /\ outcome (read_all out) (after (run args opts wd check) w)
       = inl ValueError
  | inl _ => True
  | inr r =>
    r = {| cp_args := lit "./gradlew" :: args;
           cp_returncode := Some (status c);
           cp_stdout := StdoutOf pid; cp_stderr := None |}
    /\ stdout <$> procs (after (run args opts wd check) w) !! pid
       = Some {| unread := []; closed := true |}
    /\ outcome (read_all (cp_stdout r)) (after (run args opts wd check) w)
       = inl ValueError
  end.
Proof.
  intros Hs. apply started_run_inv in Hs as [He ->].
  pose proof (stdout_after_run _ _ _ check _ _ He) as Hp.
  rewrite (outcome_run _ _ _ _ _ _ He).
  destruct ((loop_outcome _ (lines (output c))).1.2) as [l|] eqn:Hbad;
    [exact I|].
  rewrite (loop_outcome_rest _ _ Hbad) in Hp.
  assert (Hv : outcome (read_all (StdoutOf (length (procs w))))
                 (after (run args opts wd check) w) = inl ValueError).
  { unfold outcome, read_all.
    destruct (procs (after (run args opts wd check) w) !! length (procs w))
      as [p|]; [|reflexivity].
    injection Hp as Hp. by rewrite Hp. }
  destruct (check && negb (status c =? 0)%Z); simpl; by repeat split.
Qed.

Lemma run_carries_status_command_and_stream_witness :
  match outcome (run [lit "build"] [] None true)
          (machine home failing_build) with
  | inl (CalledProcessError rc cmd out err) =>
    rc = status failing_build /\ cmd = lit "./gradlew" :: [lit "build"]
    /\ out = StdoutOf 0 /\ err = None
    /\ stdout <$> procs (after (run [lit "build"] [] None true)
                           (machine home failing_build)) !! 0%nat
       = Some {| unread := []; closed := true |}
    /\ outcome (read_all out)
         (after (run [lit "build"] [] None true)
            (machine home failing_build))
       = inl ValueError
  | inl _ => True
  | inr r =>
    r = {| cp_args := lit "./gradlew" :: [lit "build"];
           cp_returncode := Some (status failing_build);
           cp_stdout := StdoutOf 0; cp_stderr := None |}
    /\ stdout <$> procs (after (run [lit "build"] [] None true)
                           (machine home failing_build)) !! 0%nat
       = Some {| unread := []; closed := true |}
    /\ outcome (read_all (cp_stdout r))
         (after (run [lit "build"] [] None true)
            (machine home failing_build))
       = inl ValueError
  end.
Proof.
  apply (run_carries_status_command_and_stream _ _ _ _ _ 0%nat).
  vm_compute. reflexivity.
Defined.

(** C2 as stated fails: neither the record returned nor the error raised
    holds the output.  Two builds that print different lines and exit alike
    give the same record and leave the same objects behind, and the stream
    the record refers to can no longer be read; the same holds for the
    error of a failed build. *)
Lemma run_result_does_not_hold_the_output :
  output build_ok <> output build_ok'
  /\ outcome (run [lit "build"] [] None true) (machine home build_ok)
     = outcome (run [lit "build"] [] None true) (machine home build_ok')
  /\ procs (after (run [lit "build"] [] None true) (machine home build_ok))
     = procs (after (run [lit "build"] [] None true)
                (machine home build_ok'))
  /\ (exists r,
        outcome (run [lit "build"] [] None true) (machine home build_ok)
        = inr r
        /\ outcome (read_all (cp_stdout r))
             (after (run [lit "build"] [] None true)
                (machine home build_ok))
           = inl ValueError)
  /\ (exists rc cmd out err,
        outcome (run [lit "build"] [] None true)
          (machine home failing_build)
        = inl (CalledProcessError rc cmd out err)
        /\ output failing_build <> []
        /\ outcome (read_all out)
             (after (run [lit "build"] [] None true)
                (machine home failing_build))
           = inl ValueError).
Proof.
  split; [intros H; vm_compute in H; discriminate|].
  split; [vm_compute; reflexivity|].
  split; [vm_compute; reflexivity|].
  split.
  - eexists. split; vm_compute; reflexivity.
  - do 4 eexists. split; [vm_compute; reflexivity|].
    split; [intros H; vm_compute in H; discriminate|].
    vm_compute; reflexivity.
Qed.

(** *** The order of reading and logging *)

Lemma loop_outcome_prefix pid pre l post :
  forallb decodable (pre ++ [l]) = true ->
  (loop_outcome pid (pre ++ l :: post)).1.1 =
  flat_map (echo pid) pre ++ echo pid l ++ (loop_outcome pid post).1.1.
Proof.
  induction pre as [|x pre IH]; simpl; intros [Hx Hd]%andb_prop.
  - unfold decodable, rendered in *.
    destruct (decode l); [|discriminate].
    by destruct (loop_outcome pid post) as [[t bad] rest].
  - specialize (IH Hd). unfold decodable, rendered in *.
    destruct (decode x); [|discriminate].
    destruct (loop_outcome pid (pre ++ l :: post)) as [[t bad] rest].
    simpl in *. by rewrite IH.
Qed.

Lemma reads_echo pid pre : reads (flat_map (echo pid) pre) = pre.
Proof. induction pre as [|x pre IH]; simpl; by rewrite ?IH. Qed.

Lemma infos_echo pid pre :
  infos (flat_map (echo pid) pre) = (fun x => (rendered x, [])) <$> pre.
Proof. induction pre as [|x pre IH]; simpl; by rewrite ?IH. Qed.

Lemma no_final_echo pid pre :
  forallb (fun e => negb (final_event e)) (flat_map (echo pid) pre) = true.
Proof. induction pre as [|x pre IH]; simpl; by rewrite ?IH. Qed.

(** X15. The order of reading and logging.  Take a line of the child's
    output such that it and the lines before it are valid UTF-8.  [run]
    logs it right after reading it; by then it has read exactly the lines
    before it and logged them in their order, and it has neither seen the
    end of the output nor
    closed the pipe nor waited for the child.  After the last line come the
    end of the output, the closing of the pipe and the wait, in this
    order. *)
Theorem run_logs_each_line_as_read args opts wd check w pid c pre l post :
  started (events_of (run args opts wd check) w) = [(pid, c)] ->
  lines (output c) = pre ++ l :: post ->
  forallb decodable (pre ++ [l]) = true ->
  exists t1 t2,
    events_of (run args opts wd check) w
    = t1 ++ Read pid l :: Info (rendered l) [] :: t2
    /\ reads t1 = pre
    /\ tail (infos t1) = (fun x => (rendered x, [])) <$> pre
    /\ forallb (fun e => negb (final_event e)) t1 = true
    /\ match post with
       | [] => t2 = [Eof pid; Close pid; Wait pid (status c)]
       | _ :: _ => True
       end.
Proof.
  intros Hs Hl Hd. apply started_run_inv in Hs as [He ->].
  rewrite events_of_run. cbv zeta. rewrite He, Hl.
  rewrite (loop_outcome_prefix _ _ _ _ Hd).
  eexists (_ :: _ :: _ :: flat_map (echo (length (procs w))) pre), _.
  split.
  { simpl. rewrite <- !app_assoc. reflexivity. }
  split; [|split; [|split]].
  - change (reads (?a :: ?b :: ?c :: ?t)) with (reads t) at 1.
    apply reads_echo.
  - change (tail (infos (?a :: ?b :: ?c :: ?t))) with (infos t) at 1.
    apply infos_echo.
  - change (forallb ?f (?a :: ?b :: ?c :: ?t)) with (forallb f t) at 1.
    apply no_final_echo.
  - by destruct post.
Qed.

(** The second line of a failing build: logged once the first has been,
    and followed by the end of the output and the wait. *)
Lemma run_logs_each_line_as_read_witness :
  exists t1 t2,
    events_of (run [lit "build"] [] None false) (machine home failing_build)
    = t1 ++ Read 0 (blit "FAILED  " ++ [x0a])
         :: Info (rendered (blit "FAILED  " ++ [x0a])) [] :: t2
    /\ reads t1 = [blit "> Task :lint" ++ [x0d; x0a]]
    /\ tail (infos t1)
       = (fun x => (rendered x, [])) <$> [blit "> Task :lint" ++ [x0d; x0a]]
    /\ forallb (fun e => negb (final_event e)) t1 = true
    /\ t2 = [Eof 0; Close 0; Wait 0 (status failing_build)].
Proof.
  apply (run_logs_each_line_as_read [lit "build"] [] None false
           (machine home failing_build) 0%nat failing_build
           [blit "> Task :lint" ++ [x0d; x0a]]
           (blit "FAILED  " ++ [x0a]) []).
  - vm_compute. reflexivity.
  - vm_compute. reflexivity.
  - vm_compute. reflexivity.
Defined.

(** An output of which nothing is logged: [garbled] emits two lines, the
    second of which is plain text, and [run] logs neither, because it
    stops at the first. *)
Lemma run_logs_nothing_after_undecodable_line :
  started (events_of (run [lit "build"] [] None false)
             (machine home garbled)) = [(0%nat, garbled)]
  /\ lines (output garbled) = [[xff; x0a]; blit "b" ++ [x0a]]
  /\ decode (blit "b" ++ [x0a]) = Some (lit "b" ++ [10])
  /\ tail (infos (events_of (run [lit "build"] [] None false)
                    (machine home garbled))) = []
  /\ reads (events_of (run [lit "build"] [] None false)
              (machine home garbled)) = [[xff; x0a]].
Proof. repeat split; vm_compute; reflexivity. Qed.

(** *** What is logged for a line *)

(** [rstrip] removes a suffix of whitespace and leaves no whitespace at
    the end. *)
Lemma rstrip_spec s :
  exists ws, s = rstrip s ++ ws
             /\ forallb isspace ws = true
             /\ from_option isspace false (last (rstrip s)) = false.
Proof.
  induction s as [|c s (ws & Hs & Hws & Hlast)]; simpl.
  - by exists [].
  - destruct (rstrip s) as [|c' t] eqn:Ht.
    + destruct (isspace c) eqn:Hc.
      * exists (c :: ws). simpl in *. rewrite Hc, Hws. by subst.
      * exists ws. simpl in *. rewrite Hc. by subst.
    + exists ws. split; [simpl; by rewrite Hs at 1|]. split; [done|].
      change (last (c :: c' :: t)) with (last (c' :: t)). exact Hlast.
Qed.

Lemma loop_infos_follow_reads pid ls : forall j msg margs,
  (loop_outcome pid ls).1.1 !! j = Some (Info msg margs) ->
  exists j' line s,
    j = S j' /\ (loop_outcome pid ls).1.1 !! j' = Some (Read pid line)
    /\ decode line = Some s /\ msg = rstrip s /\ margs = [].
Proof.
  induction ls as [|l ls IH]; intros j msg margs; simpl.
  - destruct j as [|j]; [discriminate|]. by destruct j.
  - destruct (decode l) as [s|] eqn:Hl; simpl.
    + destruct (loop_outcome pid ls) as [[t bad] rest]; simpl in *.
      destruct j as [|[|j]]; simpl.
      * discriminate.
      * intros [= <- <-]. by exists 0%nat, l, s.
      * intros Hj. destruct (IH _ _ _ Hj) as (j' & line & s' & -> & H & ?).
        by exists (S (S j')), line, s'.
    + destruct j as [|j]; [discriminate|]. by destruct j.
Qed.

Lemma loop_reads_are_logged pid ls : forall j p line s,
  (loop_outcome pid ls).1.1 !! j = Some (Read p line) ->
  decode line = Some s ->
  (loop_outcome pid ls).1.1 !! S j = Some (Info (rstrip s) []).
Proof.
  induction ls as [|l ls IH]; intros j p line s; simpl.
  - destruct j as [|j]; [discriminate|]. by destruct j.
  - destruct (decode l) as [s'|] eqn:Hl; simpl.
    + destruct (loop_outcome pid ls) as [[t bad] rest]; simpl in *.
      destruct j as [|[|j]]; simpl.
      * intros [= <- <-]. rewrite Hl. by intros [= <-].
      * discriminate.
      * apply IH.
    + destruct j as [|j]; [|by destruct j].
      simpl. intros [= <- <-]. by rewrite Hl.
Qed.

(** C10. Every record [run] logs after the one that announces the command
    comes right after the reading of a line; its text is that line decoded
    and then stripped, that is, the decoded line without a suffix of
    whitespace and with no whitespace left at its end (the line feed
    included), and it has no arguments.  Conversely every line read that
    decodes is logged so, right after it is read. *)
Theorem run_logs_decoded_stripped_line args opts wd check w i :
  (forall msg margs,
     events_of (run args opts wd check) w !! S i = Some (Info msg margs) ->
     exists pid line s ws,
       events_of (run args opts wd check) w !! i = Some (Read pid line)
       /\ decode line = Some s
       /\ msg = rstrip s /\ margs = []
       /\ s = msg ++ ws
       /\ forallb isspace ws = true
       /\ from_option isspace false (last msg) = false)
  /\ (forall pid line s,
        events_of (run args opts wd check) w !! i = Some (Read pid line) ->
        decode line = Some s ->
        events_of (run args opts wd check) w !! S i
        = Some (Info (rstrip s) [])).
Proof.
  rewrite events_of_run. cbv zeta.
  destruct (launch _ _ _ w) as [errno|c].
  { split; intros *; destruct i as [|[|i]]; discriminate. }
  set (t := (loop_outcome (length (procs w)) (lines (output c))).1.1).
  split.
  - intros msg margs. destruct i as [|[|k]]; [discriminate..|].
    change (([?a; ?b] ++ [?c] ++ ?r) !! S (S (S k))) with (r !! k).
    intros Hk. destruct (decide (k < length t)%nat) as [Hlt|Hge].
    + rewrite lookup_app_l in Hk by done.
      destruct (loop_infos_follow_reads _ _ _ _ _ Hk)
        as (j' & line & s & -> & Hr & Hd & -> & ->).
      destruct (rstrip_spec s) as (ws & Hs & Hws & Hlast).
      exists (length (procs w)), line, s, ws. split; [|done].
      change (([?a; ?b] ++ [?c] ++ ?r) !! S (S (S j'))) with (r !! j').
      rewrite lookup_app_l by lia. exact Hr.
    + rewrite lookup_app_r in Hk by lia.
      destruct (k - length t)%nat as [|[|?]]; discriminate.
  - intros pid line s. destruct i as [|[|[|k]]]; [discriminate..|].
    change (([?a; ?b] ++ [?c] ++ ?r) !! S (S (S k))) with (r !! k).
    change (([?a; ?b] ++ [?c] ++ ?r) !! S (S (S (S k)))) with (r !! S k).
    intros Hk Hd. destruct (decide (k < length t)%nat) as [Hlt|Hge].
    + rewrite lookup_app_l in Hk by done.
      pose proof (loop_reads_are_logged _ _ _ _ _ _ Hk Hd) as Hi.
      rewrite lookup_app_l; [exact Hi|]. by eapply lookup_lt_Some.
    + rewrite lookup_app_r in Hk by lia.
      destruct (k - length t)%nat as [|[|?]]; discriminate.
Qed.

(** The second record logged for a failing build, and the logging of its
    second line. *)
Lemma run_logs_decoded_stripped_line_witness :
  (exists pid line s ws,
     events_of (run [lit "build"] [] None false) (machine home failing_build)
       !! 3%nat = Some (Read pid line)
     /\ decode line = Some s
     /\ lit "> Task :lint" = rstrip s /\ @nil str = []
     /\ s = lit "> Task :lint" ++ ws
     /\ forallb isspace ws = true
     /\ from_option isspace false (last (lit "> Task :lint")) = false)
  /\ events_of (run [lit "build"] [] None false) (machine home failing_build)
       !! 6%nat = Some (Info (rstrip (lit "FAILED  " ++ [10])) []).
Proof.
  split.
  - apply (proj1 (run_logs_decoded_stripped_line [lit "build"] [] None false
                    (machine home failing_build) 3%nat)).
    vm_compute. reflexivity.
  - apply (proj2 (run_logs_decoded_stripped_line [lit "build"] [] None false
                    (machine home failing_build) 5%nat)
             0%nat (blit "FAILED  " ++ [x0a])).
    + vm_compute. reflexivity.
    + vm_compute. reflexivity.
Defined.

(** ** Further properties of [run] *)

(** *** The launch *)

Lemma join_cons sep x l :
  join sep (x :: l) = x ++ flat_map (fun a => sep ++ a) l.
Proof.
  revert x; induction l as [|y l IH]; intros x.
  - simpl. by rewrite app_nil_r.
  - change (join sep (x :: y :: l)) with (x ++ sep ++ join sep (y :: l)).
    rewrite IH. simpl. by rewrite <- !app_assoc.
Qed.

Lemma launch_error_inv command cwd e w x :
  launch command cwd e w = inl x ->
  (x = ArgumentValueError /\ exec_ready w command cwd e = false)
  \/ (exists errno, x = OSError errno
                    /\ exec_ready w command cwd e = true
                    /\ execve w command (child_dir cwd w) e = inl errno).
Proof.
  unfold launch. destruct (exec_ready w command cwd e); [|intros [= <-]; by left].
  destruct (execve w command (child_dir cwd w) e) as [errno|c];
    [|discriminate].
  intros [= <-]. right. by exists errno.
Qed.

(** [Popen] refuses a null in an argument and a surrogate that the
    filesystem encoding cannot escape, before anything is started; a
    surrogate it can escape passes. *)
Example run_refuses_nul :
  outcome (run [[97; 0; 98]] [] None true) (machine home build_ok)
  = inl ArgumentValueError
  /\ started (events_of (run [[97; 0; 98]] [] None true)
                (machine home build_ok)) = [].
Proof. split; vm_compute; reflexivity. Qed.

Example run_refuses_lone_surrogate :
  outcome (run [] [0xD800] None true) (machine home build_ok)
  = inl ArgumentValueError.
Proof. vm_compute. reflexivity. Qed.

Example run_passes_escaped_octet :
  started (events_of (run [[0xDCFF]] [] None true) (machine home build_ok))
  = [(0%nat, build_ok)].
Proof. vm_compute. reflexivity. Qed.

(** X1. When the launch fails on the command, the directory and the
    environment [run] passes, [run] raises the error of the launch,
    whatever [check] is: the [ValueError] of [Popen] for something it
    cannot hand to [exec], or else the [OSError] of the kernel with its
    [errno].  By then it has logged the command and called the launch
    primitive, and nothing else: no process exists, nothing was read,
    closed or waited for, and [os.environ] is as before. *)
Theorem run_launch_failure_propagates args opts wd check w x :
  launch (lit "./gradlew" :: args) wd (built_env opts (environ w)) w
  = inl x ->
  outcome (run args opts wd check) w = inl x
  /\ ((x = ArgumentValueError
       /\ exec_ready w (lit "./gradlew" :: args) wd
            (built_env opts (environ w)) = false)
      \/ (exists errno,
            x = OSError errno
            /\ exec_ready w (lit "./gradlew" :: args) wd
                 (built_env opts (environ w)) = true
            /\ execve w (lit "./gradlew" :: args) (child_dir wd w)
                 (built_env opts (environ w)) = inl errno))
  /\ length (events_of (run args opts wd check) w) = 2%nat
  /\ length (infos (events_of (run args opts wd check) w)) = 1%nat
  /\ length (launch_commands (events_of (run args opts wd check) w)) = 1%nat
  /\ spawned (run args opts wd check) w = []
  /\ environ (after (run args opts wd check) w) = environ w.
Proof.
  intros He. pose proof (launch_error_inv _ _ _ _ _ He) as Hx.
  rewrite spawned_run, events_of_run. unfold outcome, after.
  rewrite run_spec. cbv zeta. rewrite He. by repeat split.
Qed.

Lemma run_launch_failure_propagates_witness :
  outcome (run [lit "build"] [] None false) (broken home 2)
  = inl (OSError 2)
  /\ ((OSError 2 = ArgumentValueError
       /\ exec_ready (broken home 2) (lit "./gradlew" :: [lit "build"]) None
            (built_env [] (environ (broken home 2))) = false)
      \/ (exists errno,
            OSError 2 = OSError errno
            /\ exec_ready (broken home 2) (lit "./gradlew" :: [lit "build"])
                 None (built_env [] (environ (broken home 2))) = true
            /\ execve (broken home 2) (lit "./gradlew" :: [lit "build"])
                 (child_dir None (broken home 2))
                 (built_env [] (environ (broken home 2))) = inl errno))
  /\ length (events_of (run [lit "build"] [] None false) (broken home 2))
     = 2%nat
  /\ length (infos (events_of (run [lit "build"] [] None false)
                      (broken home 2))) = 1%nat
  /\ length (launch_commands (events_of (run [lit "build"] [] None false)
                                (broken home 2))) = 1%nat
  /\ spawned (run [lit "build"] [] None false) (broken home 2) = []
  /\ environ (after (run [lit "build"] [] None false) (broken home 2))
     = environ (broken home 2).
Proof.
  apply run_launch_failure_propagates. vm_compute. reflexivity.
Defined.

(** X3. Before it does anything outside, [run] logs one record with the
    format of line 38 and two arguments: the command as one string,
    [./gradlew] followed by every argument with one space before it, and
    the working directory, [.] when [workdir] is [None] or empty.  The call
    of the launch primitive comes right after. *)
Theorem run_announces_the_command args opts wd check w :
  exists e,
    take 2 (events_of (run args opts wd check) w)
    = [Info executing_fmt
         [lit "./gradlew" ++ flat_map (fun a => lit " " ++ a) args;
          match wd with
          | Some (c :: d) => c :: d
          | _ => lit "."
          end];
       Launch (lit "./gradlew" :: args) wd e].
Proof.
  eexists. rewrite events_of_run. cbv zeta. rewrite join_cons.
  simpl take. by destruct wd as [[|c d]|].
Qed.

(** X4. [run] touches nothing it did not create: the processes and the
    [dict] objects that existed before are as they were, the current
    directory is kept, exactly one [dict] is allocated and at most one
    process is created. *)
Theorem run_frame args opts wd check w :
  take (length (procs w)) (procs (after (run args opts wd check) w))
  = procs w
  /\ take (length (dicts w)) (dicts (after (run args opts wd check) w))
     = dicts w
  /\ length (dicts (after (run args opts wd check) w))
     = S (length (dicts w))
  /\ (length (spawned (run args opts wd check) w) <= 1)%nat
  /\ getcwd (after (run args opts wd check) w) = getcwd w.
Proof.
  rewrite spawned_run. unfold after. rewrite run_spec. cbv zeta.
  destruct (launch _ _ _ w) as [errno|c].
  - simpl. rewrite firstn_all, take_app_length, length_app. simpl.
    repeat split; lia.
  - destruct (loop_outcome _ (lines (output c))) as [[t bad] rest]. simpl.
    rewrite !take_app_length, length_app. simpl. repeat split; lia.
Qed.

(** *** Releasing the child *)

Lemma loop_events_no_release pid ls :
  forallb (fun e => negb (releases e)) (loop_outcome pid ls).1.1 = true.
Proof.
  induction ls as [|l ls IH]; simpl; [reflexivity|].
  destruct (decode l); [|reflexivity].
  by destruct (loop_outcome pid ls) as [[t bad] rest].
Qed.

(** X2. On every path out of [run] on which a child was started, also when
    a line fails to decode, the pipe is closed and the child is reaped with
    its status recorded; the closing and the wait happen once each and are
    the last two things [run] does. *)
Theorem run_releases_the_child args opts wd check w pid c :
  started (events_of (run args opts wd check) w) = [(pid, c)] ->
  (exists p,
     procs (after (run args opts wd check) w) !! pid = Some p
     /\ closed (stdout p) = true
     /\ returncode p = Some (status c))
  /\ exists t,
       events_of (run args opts wd check) w
       = t ++ [Close pid; Wait pid (status c)]
       /\ forallb (fun e => negb (releases e)) t = true.
Proof.
  intros Hs. apply started_run_inv in Hs as [He ->]. split.
  - unfold after. rewrite run_spec. cbv zeta. rewrite He.
    destruct (loop_outcome _ (lines (output c))) as [[t bad] rest]. simpl.
    rewrite lookup_last_proc. by eexists.
  - rewrite events_of_run. cbv zeta. rewrite He.
    eexists (_ :: _ :: _ :: (loop_outcome _ (lines (output c))).1.1).
    split; [reflexivity|].
    simpl. apply loop_events_no_release.
Qed.

Lemma run_releases_the_child_witness :
  (exists p,
     procs (after (run [lit "build"] [] None true) (machine home garbled))
       !! 0%nat = Some p
     /\ closed (stdout p) = true
     /\ returncode p = Some (status garbled))
  /\ exists t,
       events_of (run [lit "build"] [] None true) (machine home garbled)
       = t ++ [Close 0; Wait 0 (status garbled)]
       /\ forallb (fun e => negb (releases e)) t = true.
Proof.
  apply run_releases_the_child. vm_compute. reflexivity.
Defined.

(** *** A line that does not decode *)

Lemma loop_outcome_bad pid pre bad post :
  forallb decodable pre = true -> decodable bad = false ->
  loop_outcome pid (pre ++ bad :: post)
  = (flat_map (echo pid) pre ++ [Read pid bad], Some bad, concat post).
Proof.
  intros Hpre Hbad. induction pre as [|x pre IH]; simpl.
  - unfold decodable in Hbad. by destruct (decode bad).
  - simpl in Hpre. apply andb_prop in Hpre as [Hx Hpre].
    rewrite (IH Hpre). unfold decodable, rendered in *.
    by destruct (decode x).
Qed.

(** X5. When the lines before some line are valid UTF-8 and that line is
    not, [run] raises [UnicodeDecodeError] with that line, whatever [check]
    and the exit status are.  It has read the lines up to that one and
    logged those before it, in order; the rest of the output is left
    unread in the pipe, which is closed. *)
Theorem run_stops_at_first_undecodable_line
    args opts wd check w pid c pre bad post :
  started (events_of (run args opts wd check) w) = [(pid, c)] ->
  lines (output c) = pre ++ bad :: post ->
  forallb decodable pre = true ->
  decodable bad = false ->
  outcome (run args opts wd check) w = inl (UnicodeDecodeError bad)
  /\ reads (events_of (run args opts wd check) w) = pre ++ [bad]
  /\ tail (infos (events_of (run args opts wd check) w))
     = (fun x => (rendered x, [])) <$> pre
  /\ stdout <$> procs (after (run args opts wd check) w) !! pid
     = Some {| unread := concat post; closed := true |}.
Proof.
  intros Hs Hl Hpre Hbad. apply started_run_inv in Hs as [He ->].
  rewrite events_of_run. cbv zeta.
  rewrite (outcome_run _ _ _ _ _ _ He), (stdout_after_run _ _ _ _ _ _ He).
  rewrite He, Hl, (loop_outcome_bad _ _ _ _ Hpre Hbad). simpl.
  split; [reflexivity|]. split; [|split; [|reflexivity]].
  - unfold reads. rewrite !omap_app.
    fold (reads (flat_map (echo (length (procs w))) pre)).
    rewrite reads_echo. simpl. by rewrite app_nil_r.
  - unfold infos. rewrite !omap_app.
    fold (infos (flat_map (echo (length (procs w))) pre)).
    rewrite infos_echo. simpl. by rewrite !app_nil_r.
Qed.

Lemma run_stops_at_first_undecodable_line_witness :
  outcome (run [lit "build"] [] None true) (machine home garbled)
  = inl (UnicodeDecodeError [xff; x0a])
  /\ reads (events_of (run [lit "build"] [] None true)
              (machine home garbled)) = [] ++ [[xff; x0a]]
  /\ tail (infos (events_of (run [lit "build"] [] None true)
                    (machine home garbled)))
     = (fun x => (rendered x, [])) <$> []
  /\ stdout <$> procs (after (run [lit "build"] [] None true)
                         (machine home garbled)) !! 0%nat
     = Some {| unread := concat [blit "b" ++ [x0a]]; closed := true |}.
Proof.
  apply (run_stops_at_first_undecodable_line [lit "build"] [] None true
           (machine home garbled) 0%nat garbled [] [xff; x0a]
           [blit "b" ++ [x0a]]).
  - vm_compute. reflexivity.
  - vm_compute. reflexivity.
  - reflexivity.
  - reflexivity.
Defined.

(** *** What becomes of the output *)

Lemma loop_outcome_conserves pid ls :
  concat (reads (loop_outcome pid ls).1.1) ++ (loop_outcome pid ls).2
  = concat ls.
Proof.
  induction ls as [|l ls IH]; simpl; [reflexivity|].
  destruct (decode l); simpl; [|by rewrite app_nil_r].
  destruct (loop_outcome pid ls) as [[t bad] rest]; simpl in *.
  by rewrite <- app_assoc, IH.
Qed.

Lemma reads_run args opts wd check w c :
  launch (lit "./gradlew" :: args) wd (built_env opts (environ w)) w = inr c ->
  reads (events_of (run args opts wd check) w)
  = reads (loop_outcome (length (procs w)) (lines (output c))).1.1.
Proof.
  intros He. rewrite events_of_run. cbv zeta. rewrite He.
  unfold reads. rewrite !omap_app. simpl. by rewrite app_nil_r.
Qed.

(** X6. No octet of the child's output is lost or read twice: the lines
    [run] has read, put end to end, followed by what it leaves unread in
    the pipe, are the output as the child wrote it. *)
Theorem run_reads_the_output_once args opts wd check w pid c :
  started (events_of (run args opts wd check) w) = [(pid, c)] ->
  exists p,
    procs (after (run args opts wd check) w) !! pid = Some p
    /\ concat (reads (events_of (run args opts wd check) w))
       ++ unread (stdout p) = output c.
Proof.
  intros Hs. apply started_run_inv in Hs as [He ->].
  pose proof (stdout_after_run _ _ _ check _ _ He) as Hp.
  destruct (procs (after (run args opts wd check) w) !! length (procs w))
    as [p|]; [|discriminate].
  exists p. split; [reflexivity|]. injection Hp as ->. simpl.
  rewrite (reads_run _ _ _ _ _ _ He), loop_outcome_conserves.
  apply concat_lines.
Qed.

Lemma run_reads_the_output_once_witness :
  exists p,
    procs (after (run [lit "build"] [] None true) (machine home garbled))
      !! 0%nat = Some p
    /\ concat (reads (events_of (run [lit "build"] [] None true)
                        (machine home garbled)))
       ++ unread (stdout p) = output garbled.
Proof.
  apply run_reads_the_output_once. vm_compute. reflexivity.
Defined.

(** *** Which errors, and when *)

Lemma loop_outcome_bad_inv pid ls l :
  (loop_outcome pid ls).1.2 = Some l ->
  decode l = None /\ last (reads (loop_outcome pid ls).1.1) = Some l.
Proof.
  induction ls as [|x ls IH]; simpl; [discriminate|].
  destruct (decode x) as [s|] eqn:Hx; simpl.
  - destruct (loop_outcome pid ls) as [[t bad] rest]; simpl in *.
    intros Hb. destruct (IH Hb) as [Hd Hl]. split; [done|].
    destruct (reads t); [discriminate | exact Hl].
  - by intros [= <-].
Qed.

(** X11. What [run] can raise: an error of the launch, that is an
    [OSError] or the [ValueError] of [Popen] for something it cannot hand
    to [exec], only when no process was started; a [UnicodeDecodeError]
    only for the line it read last, which does not decode; a
    [CalledProcessError] only when [check] is true, with the status of the
    child, which is then not zero.  It never fails on reading the closed
    pipe.  When [run] returns, the record holds an exit status, and that
    status is zero unless [check] is false. *)
Theorem run_error_taxonomy args opts wd check w :
  match outcome (run args opts wd check) w with
  | inl (OSError _) | inl ArgumentValueError =>
    started (events_of (run args opts wd check) w) = []
  | inl ValueError => False
  | inl (UnicodeDecodeError l) =>
    decode l = None
    /\ last (reads (events_of (run args opts wd check) w)) = Some l
  | inl (CalledProcessError rc cmd out err) =>
    check = true /\ rc <> 0%Z
    /\ exists pid c,
         started (events_of (run args opts wd check) w) = [(pid, c)]
         /\ status c = rc
  | inr r =>
    exists rc, cp_returncode r = Some rc /\ (check = false \/ rc = 0%Z)
  end.
Proof.
  rewrite started_run.
  destruct (launch (lit "./gradlew" :: args) wd
              (built_env opts (environ w)) w) as [x|c] eqn:He.
  { unfold outcome. rewrite run_spec. cbv zeta. rewrite He. simpl.
    by destruct (launch_error_inv _ _ _ _ _ He)
      as [[-> _]|(errno & -> & _)]. }
  rewrite (outcome_run _ _ _ _ _ _ He), (reads_run _ _ _ _ _ _ He).
  destruct ((loop_outcome _ (lines (output c))).1.2) as [l|] eqn:Hbad.
  { by apply loop_outcome_bad_inv. }
  destruct check, (Z.eqb_spec (status c) 0) as [Hz|Hz]; simpl; eauto 10.
Qed.

(** *** One run after another *)

Lemma run_returns_inv args opts wd check w r :
  outcome (run args opts wd check) w = inr r ->
  cp_stdout r = StdoutOf (length (procs w))
  /\ length (procs (after (run args opts wd check) w))
     = S (length (procs w)).
Proof.
  unfold outcome, after. rewrite run_spec. cbv zeta.
  destruct (launch _ _ _ w) as [errno|c]; [discriminate|].
  destruct (loop_outcome _ (lines (output c))) as [[t [l|]] rest]; simpl;
    [discriminate|].
  destruct (check && negb (status c =? 0)%Z); [discriminate|].
  intros [= <-]. simpl. rewrite length_app. simpl. split; [done | lia].
Qed.

(** X12. A run leaves nothing behind that a later run picks up: whatever
    the first run did, returned or raised, the environment the second run
    passes to the launch primitive is the one it would have passed had the
    first not taken place, so the [gradle_opts] of the first do not leak
    into the second; and when both return, their records refer to two
    different stream objects. *)
Theorem run_twice a1 o1 wd1 ck1 a2 o2 wd2 ck2 w :
  launch_envs (events_of (run a2 o2 wd2 ck2) (after (run a1 o1 wd1 ck1) w))
  = launch_envs (events_of (run a2 o2 wd2 ck2) w)
  /\ forall r1 r2,
       outcome (run a1 o1 wd1 ck1) w = inr r1 ->
       outcome (run a2 o2 wd2 ck2) (after (run a1 o1 wd1 ck1) w) = inr r2 ->
       cp_stdout r1 <> cp_stdout r2.
Proof.
  split.
  - by rewrite !launch_envs_run, environ_after_run.
  - intros r1 r2 H1 H2.
    apply run_returns_inv in H1 as [-> Hlen].
    apply run_returns_inv in H2 as [-> _]. rewrite Hlen.
    intros [= H]. lia.
Qed.

(** Two builds in a row, the first with [gradle_opts]; and the same with
    a first build that fails its check. *)
Lemma run_twice_witness :
  (launch_envs (events_of (run [lit "test"] [] None true)
                  (after (run [lit "build"] (lit "-Xmx2g") None true)
                     (machine home build_ok)))
   = launch_envs (events_of (run [lit "test"] [] None true)
                    (machine home build_ok))
   /\ StdoutOf 0 <> StdoutOf 1)
  /\ launch_envs (events_of (run [lit "test"] [] None true)
                    (after (run [lit "build"] (lit "-Xmx2g") None true)
                       (machine home failing_build)))
     = launch_envs (events_of (run [lit "test"] [] None true)
                      (machine home failing_build)).
Proof.
  split.
  - destruct (run_twice [lit "build"] (lit "-Xmx2g") None true
                [lit "test"] [] None true (machine home build_ok))
      as [Henv Hne].
    split; [exact Henv|].
    apply (Hne {| cp_args := [lit "./gradlew"; lit "build"];
                  cp_returncode := Some 0%Z;
                  cp_stdout := StdoutOf 0; cp_stderr := None |}
               {| cp_args := [lit "./gradlew"; lit "test"];
                  cp_returncode := Some 0%Z;
                  cp_stdout := StdoutOf 1; cp_stderr := None |}).
    + vm_compute. reflexivity.
    + vm_compute. reflexivity.
  - apply (run_twice [lit "build"] (lit "-Xmx2g") None true
             [lit "test"] [] None true (machine home failing_build)).
Defined.

(** *** The lines read *)

Lemma lines_shape bs :
  Forall (fun l => l <> [] /\ x0a ∉ removelast l) (lines bs).
Proof.
  induction bs as [|b bs IH]; simpl; [constructor|].
  destruct (Byte.eqb b x0a) eqn:Hb.
  - constructor; [|exact IH]. split; [done|]. simpl. apply not_elem_of_nil.
  - apply Byte.eqb_false in Hb.
    destruct (lines bs) as [|l ls]; constructor.
    + split; [done|]. simpl. apply not_elem_of_nil.
    + constructor.
    + apply Forall_cons in IH as [[Hne Hl] _]. split; [done|].
      destruct l as [|b' l']; [done|].
      change (removelast (b :: b' :: l')) with (b :: removelast (b' :: l')).
      rewrite not_elem_of_cons. split; [congruence | exact Hl].
    + by apply Forall_cons in IH as [_ ?].
Qed.

Lemma loop_reads_prefix pid ls :
  exists k, reads (loop_outcome pid ls).1.1 = take k ls.
Proof.
  induction ls as [|l ls [k IH]]; simpl; [by exists 0%nat|].
  destruct (decode l); simpl.
  - destruct (loop_outcome pid ls) as [[t bad] rest]; simpl in *.
    exists (S k). simpl. by rewrite IH.
  - by exists 1%nat.
Qed.

(** X7. Every line [run] reads from the pipe, and so every line it hands
    to [decode], holds at least one octet and has no line feed before its
    last octet. *)
Theorem run_reads_whole_lines args opts wd check w i line :
  reads (events_of (run args opts wd check) w) !! i = Some line ->
  line <> [] /\ x0a ∉ removelast line.
Proof.
  rewrite events_of_run. cbv zeta.
  destruct (launch _ _ _ w) as [errno|c]; [by destruct i|].
  unfold reads. rewrite !omap_app. simpl. rewrite app_nil_r.
  fold (reads (loop_outcome (length (procs w)) (lines (output c))).1.1).
  destruct (loop_reads_prefix (length (procs w)) (lines (output c)))
    as [k ->].
  intros Hi. apply lookup_take_Some in Hi as [Hi _].
  exact (proj1 (Forall_lookup _ _) (lines_shape (output c)) _ _ Hi).
Qed.

Lemma run_reads_whole_lines_witness :
  blit "> Task :lint" ++ [x0d; x0a] <> []
  /\ x0a ∉ removelast (blit "> Task :lint" ++ [x0d; x0a]).
Proof.
  apply (run_reads_whole_lines [lit "build"] [] None false
           (machine home failing_build) 0%nat).
  vm_compute. reflexivity.
Defined.

(** *** One record, one line *)

Lemma to_N_lf b : Byte.to_N b = 10 -> b = x0a.
Proof.
  intros H. pose proof (Byte.of_to_N b) as Hb. rewrite H in Hb.
  by injection Hb.
Qed.

Ltac bools :=
  repeat match goal with
         | H : (_ && _) = true |- _ => apply andb_prop in H as [? ?]
         | H : (_ <? _) = true |- _ => apply N.ltb_lt in H
         | H : (_ <? _) = false |- _ => apply N.ltb_ge in H
         | H : (_ <=? _) = true |- _ => apply N.leb_le in H
         | H : (_ =? _) = true |- _ => apply N.eqb_eq in H
         | H : (_ =? _) = false |- _ => apply N.eqb_neq in H
         end.

(** One step of [decode]: the first character comes from the first octet
    and at most three more, and it is a line feed only if that octet is
    one. *)
Lemma decode_cons_inv b0 r0 s :
  decode (b0 :: r0) = Some s ->
  exists k cp s',
    s = cp :: s' /\ decode (drop k r0) = Some s'
    /\ (cp = 10 -> k = 0%nat /\ b0 = x0a).
Proof.
  simpl. unfold cont, in_range, low6.
  destruct (Byte.to_N b0 <? 128) eqn:H1.
  { destruct (decode r0) as [s'|] eqn:Hd; [|discriminate].
    intros [= <-]. exists 0%nat, (Byte.to_N b0), s'.
    repeat split; try done. by apply to_N_lf. }
  destruct (Byte.to_N b0 <? 194) eqn:H2; [discriminate|].
  destruct (Byte.to_N b0 <? 224) eqn:H3.
  { destruct r0 as [|b1 r1]; [discriminate|].
    destruct (_ && _) eqn:Hc; [|discriminate].
    destruct (decode r1) as [s'|] eqn:Hd; [|discriminate].
    intros [= <-]. eexists 1%nat, _, s'. repeat split; try done.
    all: bools; lia. }
  destruct (Byte.to_N b0 <? 240) eqn:H4.
  { destruct r0 as [|b1 [|b2 r2]]; [discriminate..|].
    destruct (_ && _) eqn:Hc; [|discriminate].
    destruct (decode r2) as [s'|] eqn:Hd; [|discriminate].
    intros [= <-]. eexists 2%nat, _, s'. repeat split; try done.
    all: destruct (Byte.to_N b0 =? 224) eqn:He;
      destruct (Byte.to_N b0 =? 237) eqn:He'; bools; lia. }
  destruct (Byte.to_N b0 <? 245) eqn:H5; [|discriminate].
  destruct r0 as [|b1 [|b2 [|b3 r3]]]; [discriminate..|].
  destruct (_ && _) eqn:Hc; [|discriminate].
  destruct (decode r3) as [s'|] eqn:Hd; [|discriminate].
  intros [= <-]. eexists 3%nat, _, s'. repeat split; try done.
  all: destruct (Byte.to_N b0 =? 240) eqn:He;
    destruct (Byte.to_N b0 =? 244) eqn:He'; bools; lia.
Qed.

Lemma not_in_removelast_tail {A} (x a : A) l :
  x ∉ removelast (a :: l) -> x ∉ removelast l.
Proof.
  destruct l as [|b l]; [intros _; apply not_elem_of_nil|].
  change (removelast (a :: b :: l)) with (a :: removelast (b :: l)).
  rewrite not_elem_of_cons. by intros [_ ?].
Qed.

Lemma not_in_removelast_drop {A} (x : A) k l :
  x ∉ removelast l -> x ∉ removelast (drop k l).
Proof.
  revert l; induction k as [|k IH]; intros l; [done|].
  destruct l as [|a l]; [done|]. simpl drop.
  intros H. apply IH. by eapply not_in_removelast_tail.
Qed.

(** Decoding keeps line feeds where they are: text decoded from octets
    with no line feed before the last has none before its last
    character. *)
Lemma decode_keeps_lf_last bs : forall s,
  decode bs = Some s -> x0a ∉ removelast bs -> 10 ∉ removelast s.
Proof.
  induction bs as [bs IH] using (induction_ltof1 _ (@length byte)).
  unfold ltof in IH. intros s Hd Hlf.
  destruct bs as [|b0 r0].
  { injection Hd as <-. apply not_elem_of_nil. }
  destruct (decode_cons_inv _ _ _ Hd) as (k & cp & s' & -> & Hd' & Hcp).
  destruct s' as [|c' s'']; [apply not_elem_of_nil|].
  change (removelast (cp :: c' :: s'')) with (cp :: removelast (c' :: s'')).
  rewrite not_elem_of_cons. split.
  - intros Heq. symmetry in Heq. destruct (Hcp Heq) as [-> ->].
    destruct r0 as [|b1 r1]; [discriminate|].
    apply Hlf. simpl. apply list_elem_of_here.
  - apply (IH (drop k r0)); [|exact Hd'|].
    + rewrite length_drop. simpl. lia.
    + apply not_in_removelast_drop. by eapply not_in_removelast_tail.
Qed.

Lemma rstrip_drops_last_lf s : 10 ∉ removelast s -> 10 ∉ rstrip s.
Proof.
  intros Hlf. destruct (rstrip_spec s) as (ws & Hs & Hws & Hlast).
  destruct ws as [|c ws].
  - rewrite app_nil_r in Hs. rewrite <- Hs in *.
    destruct s as [|a s] using rev_ind; [apply not_elem_of_nil|].
    rewrite removelast_last in Hlf. rewrite last_snoc in Hlast.
    simpl in Hlast. rewrite not_elem_of_app, not_elem_of_cons.
    split; [done|]. split; [|apply not_elem_of_nil].
    intros <-. discriminate.
  - rewrite Hs in Hlf at 1.
    rewrite removelast_app in Hlf by done.
    by apply not_elem_of_app in Hlf as [? _].
Qed.

Lemma loop_infos_from_lines pid ls j msg margs :
  (loop_outcome pid ls).1.1 !! j = Some (Info msg margs) ->
  exists line s, line ∈ ls /\ decode line = Some s /\ msg = rstrip s.
Proof.
  intros Hj.
  destruct (loop_infos_follow_reads _ _ _ _ _ Hj)
    as (j' & line & s & -> & Hr & Hd & -> & _).
  exists line, s. split; [|done].
  destruct (loop_reads_prefix pid ls) as [k Hk].
  assert (line ∈ reads (loop_outcome pid ls).1.1) as Hin.
  { unfold reads. apply list_elem_of_omap. exists (Read pid line).
    split; [|reflexivity]. by eapply list_elem_of_lookup_2. }
  rewrite Hk in Hin. apply elem_of_take in Hin as (i & Hi & _).
  by eapply list_elem_of_lookup_2.
Qed.

(** X8. Every record [run] logs for the output, that is every record after
    the one that announces the command, is a single line: its text holds
    no line feed. *)
Theorem run_logs_single_lines args opts wd check w i msg margs :
  events_of (run args opts wd check) w !! S i = Some (Info msg margs) ->
  10 ∉ msg.
Proof.
  rewrite events_of_run. cbv zeta.
  destruct (launch _ _ _ w) as [errno|c]; [by destruct i as [|[|i]]|].
  set (t := (loop_outcome (length (procs w)) (lines (output c))).1.1).
  destruct i as [|[|k]]; [discriminate..|].
  change (([?a; ?b] ++ [?c] ++ ?r) !! S (S (S k))) with (r !! k).
  intros Hk. destruct (decide (k < length t)%nat) as [Hlt|Hge].
  - rewrite lookup_app_l in Hk by done.
    destruct (loop_infos_from_lines _ _ _ _ _ Hk)
      as (line & s & Hin & Hd & ->).
    apply rstrip_drops_last_lf, (decode_keeps_lf_last line); [done|].
    pose proof (lines_shape (output c)) as Hsh.
    rewrite Forall_forall in Hsh. by apply Hsh.
  - rewrite lookup_app_r in Hk by lia.
    destruct (k - length t)%nat as [|[|?]]; discriminate.
Qed.

Lemma run_logs_single_lines_witness : 10 ∉ lit "FAILED".
Proof.
  apply (run_logs_single_lines [lit "build"] [] None false
           (machine home failing_build) 5%nat (lit "FAILED") []).
  vm_compute. reflexivity.
Defined.

(** *** Plain ASCII output *)

Lemma decode_ascii_only bs :
  ascii_only bs = true -> decode bs = Some (Byte.to_N <$> bs).
Proof.
  induction bs as [|b bs IH]; [reflexivity|]. simpl.
  intros [Hb Hbs]%andb_prop. by rewrite Hb, (IH Hbs).
Qed.

Lemma lines_ascii_only bs :
  ascii_only bs = true -> forallb ascii_only (lines bs) = true.
Proof.
  induction bs as [|b bs IH]; [reflexivity|]. simpl.
  intros [Hb Hbs]%andb_prop. specialize (IH Hbs).
  destruct (Byte.eqb b x0a); simpl; [by rewrite Hb, IH|].
  destruct (lines bs) as [|l ls]; simpl in *; [by rewrite Hb|].
  by rewrite Hb.
Qed.

Lemma loop_outcome_ascii pid ls :
  forallb ascii_only ls = true ->
  loop_outcome pid ls
  = (flat_map (fun l => [Read pid l; Info (rstrip (Byte.to_N <$> l)) []]) ls
     ++ [Eof pid], None, []).
Proof.
  induction ls as [|l ls IH]; [reflexivity|]. simpl.
  intros [Hl Hls]%andb_prop.
  by rewrite (decode_ascii_only _ Hl), (IH Hls).
Qed.

Lemma reads_ascii pid (f : bytes -> str) ls :
  reads (flat_map (fun l => [Read pid l; Info (f l) []]) ls) = ls.
Proof. induction ls as [|x ls IH]; simpl; by rewrite ?IH. Qed.

Lemma infos_ascii pid (f : bytes -> str) ls :
  infos (flat_map (fun l => [Read pid l; Info (f l) []]) ls)
  = (fun l => (f l, [])) <$> ls.
Proof. induction ls as [|x ls IH]; simpl; by rewrite ?IH. Qed.

(** X13. When the child writes ASCII only, decoding cannot fail: [run]
    raises no [UnicodeDecodeError], reads every line of the output and logs
    for each, in order, its octets as characters without the trailing
    whitespace. *)
Theorem run_on_ascii_output args opts wd check w pid c :
  started (events_of (run args opts wd check) w) = [(pid, c)] ->
  ascii_only (output c) = true ->
  (forall l, outcome (run args opts wd check) w
             <> inl (UnicodeDecodeError l))
  /\ reads (events_of (run args opts wd check) w) = lines (output c)
  /\ tail (infos (events_of (run args opts wd check) w))
     = (fun l => (rstrip (Byte.to_N <$> l), [])) <$> lines (output c).
Proof.
  intros Hs Ha. apply started_run_inv in Hs as [He ->].
  apply lines_ascii_only in Ha.
  rewrite (outcome_run _ _ _ _ _ _ He), (reads_run _ _ _ _ _ _ He).
  rewrite events_of_run. cbv zeta. rewrite He.
  rewrite (loop_outcome_ascii _ _ Ha). cbn [fst snd]. split; [|split].
  - intros l. by destruct (check && negb (status c =? 0)%Z).
  - unfold reads at 1. rewrite omap_app.
    fold (reads (flat_map (fun l => [Read (length (procs w)) l;
            Info (rstrip (Byte.to_N <$> l)) []]) (lines (output c)))).
    rewrite reads_ascii. simpl. by rewrite app_nil_r.
  - change (tail (infos ([?a; ?b] ++ [?d] ++ ?t))) with (infos t).
    unfold infos at 1. rewrite !omap_app.
    fold (infos (flat_map (fun l => [Read (length (procs w)) l;
            Info (rstrip (Byte.to_N <$> l)) []]) (lines (output c)))).
    rewrite infos_ascii. simpl. by rewrite !app_nil_r.
Qed.

Lemma run_on_ascii_output_witness :
  (forall l, outcome (run [lit "build"] [] None true)
               (machine home failing_build)
             <> inl (UnicodeDecodeError l))
  /\ reads (events_of (run [lit "build"] [] None true)
              (machine home failing_build))
     = lines (output failing_build)
  /\ tail (infos (events_of (run [lit "build"] [] None true)
                    (machine home failing_build)))
     = (fun l => (rstrip (Byte.to_N <$> l), []))
         <$> lines (output failing_build).
Proof.
  apply (run_on_ascii_output _ _ _ _ _ 0%nat).
  - vm_compute. reflexivity.
  - vm_compute. reflexivity.
Defined.

(** ** Further properties of [P] *)

(** X9. A flag determines the name and the value it was made from, as long
    as names hold no equals sign: two flags are equal only if their names
    and their values are. *)
Theorem P_injective (n v n' v' : str) :
  no_equals n = true -> no_equals n' = true ->
  P n v = P n' v' -> n = n' /\ v = v'.
Proof.
  unfold no_equals, P, format, format_str. intros Hn Hn' HP.
  apply app_inv_head in HP.
  assert (Hnot : forall s, forallb (fun c => negb (c =? 61)) s = true ->
                           61 ∉ s).
  { induction s as [|c s IH]; simpl; [intros _; apply not_elem_of_nil|].
    intros [Hc Hs]%andb_prop. rewrite not_elem_of_cons. split; [|auto].
    intros <-. discriminate. }
  change (lit "=" ++ ?x) with (61 :: x) in HP.
  destruct (not_elem_of_app_cons_inv_l 61 61 n v n' v')
    as (? & _ & ?); auto.
Qed.

Lemma P_injective_witness :
  lit "sdk" = lit "sdk" /\ lit "a=b" = lit "a=b".
Proof.
  apply (P_injective (lit "sdk") (lit "a=b") (lit "sdk") (lit "a=b"));
    reflexivity.
Defined.

(** X10. [P] does not escape or reject an equals sign in the name: a name
    that holds one gives the same flag as the shorter name with the rest
    moved into the value, so such a name cannot be recovered from the
    flag. *)
Theorem P_equals_sign_in_name (a b c : str) :
  P (a ++ lit "=" ++ b) c = P a (b ++ lit "=" ++ c)
  /\ no_equals (a ++ lit "=" ++ b) = false.
Proof.
  unfold P, format, format_str. split; [by rewrite <- !app_assoc|].
  unfold no_equals. rewrite !forallb_app.
  change (forallb _ (lit "=")) with false. by rewrite andb_false_r.
Qed.

(** ** The command in the log *)

Lemma head_infos_run args opts wd check w :
  head (infos (events_of (run args opts wd check) w))
  = Some (executing_fmt,
          [join (lit " ") (lit "./gradlew" :: args); or_dot wd]).
Proof. rewrite events_of_run. reflexivity. Qed.

(** X14. The command is logged with its arguments joined by spaces and
    not quoted, so the log does not tell an argument that holds a space
    from two arguments: both runs log the same record, although they
    launch different command vectors. *)
Theorem run_log_does_not_quote_arguments a b rest opts wd check w :
  head (infos (events_of
                 (run ((a ++ lit " " ++ b) :: rest) opts wd check) w))
  = head (infos (events_of (run (a :: b :: rest) opts wd check) w))
  /\ launch_commands (events_of
                        (run ((a ++ lit " " ++ b) :: rest) opts wd check) w)
     <> launch_commands (events_of (run (a :: b :: rest) opts wd check) w).
Proof.
  split.
  - rewrite !head_infos_run, !join_cons. simpl.
    by rewrite <- !app_assoc.
  - rewrite !launch_commands_run. intros [= _ H].
    apply (f_equal length) in H. simpl in H. lia.
Qed.
